(** * A Lamport-clock distributed lock: model of [process.c] and its properties

    The development embeds the per-peer coordination engine of [process.c]
    (logical clock, request queue, ack table, release table, the inbound
    line handler [process_line], the lock cycle [do_request] and [do_wait])
    and a small interleaving model of several peers exchanging lines.

    Conventions.
    - A C [int] is a [Z] in the range [INT_MIN .. INT_MAX]; arithmetic that
      can leave the range is written with [wrap], the two's-complement
      reduction the usual targets perform (ISO C leaves signed overflow
      undefined).
    - The fixed-size arrays [ack_lc] and [releases_seen] are lists of length
      [MAX_PEERS]; every indexing goes through [array_read]/[array_write],
      which fail ([None]) outside the array.  A function returning [None]
      has performed an out-of-bounds access.
    - The mutexes serialise each accessor; every accessor is one atomic
      function of the model. *)

From Stdlib Require Import ZArith Lia Ascii String.
From stdpp Require Import base option list sorting strings pretty gmap.

Local Open Scope Z_scope.

(** ** C integers *)

Definition INT_MAX : Z := 2147483647.
Definition INT_MIN : Z := -2147483648.

Definition in_int (z : Z) : Prop := INT_MIN ≤ z ≤ INT_MAX.

(** Two's-complement reduction of a mathematical integer to 32 bits. *)
Definition wrap (z : Z) : Z := (z + 2147483648) `mod` 4294967296 - 2147483648.

(** ** Constants of the program *)

Definition MAX_PEERS : Z := 128.

(** The value written into every ack slot when a request starts. *)
Definition ACK_SENTINEL : Z := -1000000000.

(** ** Lamport clock

    Both functions take the current value of the global [lc] and give back
    the returned [tmp] together with the new value of [lc]. *)

Definition inc_lc (lc : Z) : Z * Z :=
  let lc := wrap (lc + 1) in
  let tmp := lc in
  (tmp, lc).

Definition update_lc_on_receive (remote_lc : Z) (lc : Z) : Z * Z :=
  let lc := if remote_lc >=? lc then wrap (remote_lc + 1) else lc in
  let tmp := lc in
  (tmp, lc).

(** ** Request queue

    The singly linked list hanging off [queue_head] is the list of its
    entries from the head on. *)

Record ReqEntry : Type := mkReq { req_lc : Z; req_pid : Z }.

#[global] Instance ReqEntry_eq_dec : EqDecision ReqEntry.
Proof. solve_decision. Defined.

(** The loop of [queue_insert] walks past every entry that is smaller than
    the new key, and links the new entry in front of the first one that is
    not ([malloc] is taken to succeed). *)
Definition walks_past (e : ReqEntry) (rlc rpid : Z) : bool :=
  (req_lc e <? rlc) || ((req_lc e =? rlc) && (req_pid e <? rpid)).

Fixpoint queue_insert (rlc rpid : Z) (q : list ReqEntry) : list ReqEntry :=
  match q with
  | [] => [mkReq rlc rpid]
  | e :: rest =>
      if walks_past e rlc rpid then e :: queue_insert rlc rpid rest
      else mkReq rlc rpid :: e :: rest
  end.

Definition same_key (e : ReqEntry) (rlc rpid : Z) : bool :=
  (req_lc e =? rlc) && (req_pid e =? rpid).

(** [queue_remove] unlinks the first entry with exactly this key, if any. *)
Fixpoint queue_remove (rlc rpid : Z) (q : list ReqEntry) : list ReqEntry :=
  match q with
  | [] => []
  | e :: rest =>
      if same_key e rlc rpid then rest
      else e :: queue_remove rlc rpid rest
  end.

Definition queue_head_is (rlc rpid : Z) (q : list ReqEntry) : bool :=
  match q with
  | e :: _ => same_key e rlc rpid
  | [] => false
  end.

(** The order of the queue: ascending [req_lc], ties by ascending [req_pid]. *)
Definition key_le (x y : ReqEntry) : Prop :=
  req_lc x < req_lc y ∨ (req_lc x = req_lc y ∧ req_pid x ≤ req_pid y).

Definition key_leb (x y : ReqEntry) : bool :=
  (req_lc x <? req_lc y) || ((req_lc x =? req_lc y) && (req_pid x <=? req_pid y)).

(** Least entry of a queue under [key_le], by one pass over the list; the
    earliest one wins among equal keys. *)
Fixpoint queue_min (q : list ReqEntry) : option ReqEntry :=
  match q with
  | [] => None
  | e :: rest =>
      match queue_min rest with
      | Some m => if key_leb e m then Some e else Some m
      | None => Some e
      end
  end.

(** ** Fixed-size int arrays with checked indexing *)

Definition array_read (a : list Z) (i : Z) : option Z :=
  if (0 <=? i) && (i <? Z.of_nat (length a)) then a !! Z.to_nat i else None.

Definition array_write (a : list Z) (i : Z) (v : Z) : option (list Z) :=
  if (0 <=? i) && (i <? Z.of_nat (length a)) then Some (<[Z.to_nat i := v]> a)
  else None.

(** ** Ack table *)

Definition set_ack (from value : Z) (ack_lc : list Z) : option (list Z) :=
  if (from <? 0) || (from >=? MAX_PEERS) then Some ack_lc
  else array_write ack_lc from value.

(** The loop [for (i = 0; i < N; ++i)] of [all_acks_ge], started at [i] with
    [n] iterations left; it returns 0 at the first slot below the target. *)
Fixpoint all_acks_ge_from (n : nat) (i : Z) (target_lc : Z) (ack_lc : list Z)
  : option bool :=
  match n with
  | O => Some true
  | S n' =>
      v ← array_read ack_lc i;
      if v <? target_lc then Some false
      else all_acks_ge_from n' (i + 1) target_lc ack_lc
  end.

Definition all_acks_ge (N : Z) (target_lc : Z) (ack_lc : list Z) : option bool :=
  all_acks_ge_from (Z.to_nat N) 0 target_lc ack_lc.

(** The first loop of the reset in [do_request]:
    [for (i = 0; i < N; ++i) ack_lc[i] = -1000000000]. *)
Fixpoint ack_clear_from (n : nat) (i : Z) (ack_lc : list Z) : option (list Z) :=
  match n with
  | O => Some ack_lc
  | S n' =>
      ack_lc' ← array_write ack_lc i ACK_SENTINEL;
      ack_clear_from n' (i + 1) ack_lc'
  end.

(** The whole reset: clear slots [0 .. N-1], then the self-ack. *)
Definition ack_reset (N my_pid my_req_lc : Z) (ack_lc : list Z) : option (list Z) :=
  ack_lc' ← ack_clear_from (Z.to_nat N) 0 ack_lc;
  array_write ack_lc' my_pid my_req_lc.

(** ** Release table *)

Definition inc_release_seen (pid : Z) (releases_seen : list Z) : option (list Z) :=
  if (pid <? 0) || (pid >=? MAX_PEERS) then Some releases_seen
  else
    v ← array_read releases_seen pid;
    array_write releases_seen pid (wrap (v + 1)).

Definition get_release_seen (pid : Z) (releases_seen : list Z) : option Z :=
  if (pid <? 0) || (pid >=? MAX_PEERS) then Some 0
  else array_read releases_seen pid.

(** ** Reading a line: [sscanf(line, "%15s %d %d %d %d", type, &a, &b, &c, &d)]

    Lines are the text up to the terminating NUL.  ISO C leaves the
    conversion of a number that does not fit an [int] undefined; the model
    follows glibc, which converts the digits as [strtol] does (a number
    outside the range of a 64-bit [long] becomes [LONG_MAX] or [LONG_MIN])
    and stores the [long] in the [int], that is reduced modulo 2^32. *)

Definition LONG_MAX : Z := 9223372036854775807.
Definition LONG_MIN : Z := -9223372036854775808.

(** What [strtol] returns for the number [z] written in the text. *)
Definition clamp_long (z : Z) : Z := Z.max LONG_MIN (Z.min LONG_MAX z).

Definition isspace (c : ascii) : bool :=
  let n := nat_of_ascii c in
  ((n =? 32) || ((9 <=? n) && (n <=? 13)))%nat.

Definition isdigit (c : ascii) : bool :=
  let n := nat_of_ascii c in ((48 <=? n) && (n <=? 57))%nat.

Definition digit_value (c : ascii) : Z := Z.of_nat (nat_of_ascii c) - 48.

Fixpoint skip_space (s : string) : string :=
  match s with
  | String c r => if isspace c then skip_space r else s
  | EmptyString => EmptyString
  end.

(** [%15s]: at most [width] characters, up to the next white space. *)
Fixpoint scan_word (width : nat) (s : string) : string * string :=
  match width, s with
  | S w, String c r =>
      if isspace c then (EmptyString, s)
      else let '(t, rest) := scan_word w r in (String c t, rest)
  | _, _ => (EmptyString, s)
  end.

Fixpoint scan_digits (acc : Z) (s : string) : Z * string :=
  match s with
  | String c r => if isdigit c then scan_digits (acc * 10 + digit_value c) r else (acc, s)
  | EmptyString => (acc, s)
  end.

(** A digit string ends where the text ends or continues with something
    that is not a digit. *)
Definition stops (rest : string) : Prop :=
  match rest with String c _ => isdigit c = false | EmptyString => True end.

(** [%d]: white space, an optional sign, at least one digit. *)
Definition scan_int (s : string) : option (Z * string) :=
  let s := skip_space s in
  let '(negative, s1) :=
    match s with
    | String c r =>
        if Ascii.eqb c "-" then (true, r)
        else if Ascii.eqb c "+" then (false, r)
        else (false, s)
    | EmptyString => (false, s)
    end in
  match s1 with
  | String c _ =>
      if isdigit c then
        let '(v, rest) := scan_digits 0 s1 in
        Some (wrap (clamp_long (if negative then - v else v)), rest)
      else None
  | EmptyString => None
  end.

(** The [%d] directives one after the other; the first failure ends the scan. *)
Fixpoint scan_ints (n : nat) (s : string) : list Z :=
  match n with
  | O => []
  | S n' =>
      match scan_int s with
      | Some (v, rest) => v :: scan_ints n' rest
      | None => []
      end
  end.

(** Result of the call: its return value, [type], and the integers assigned,
    in order.  Input that ends before the first conversion gives EOF (-1). *)
Definition sscanf_line (line : string) : Z * string * list Z :=
  match skip_space line with
  | EmptyString => (-1, EmptyString, [])
  | s =>
      let '(type, rest) := scan_word 15 s in
      let assigned := scan_ints 4 rest in
      (1 + Z.of_nat (length assigned), type, assigned)
  end.

(** What the locals [a], [b], [c], [d] of [process_line] hold before the
    call: they are not initialised, so the values are whatever the stack
    holds. *)
Record Junk : Type := mkJunk { junk_a : Z; junk_b : Z; junk_c : Z; junk_d : Z }.

(** The branch of [process_line] a line selects, with the locals it binds. *)
Inductive Msg : Type :=
  | Dropped                                        (* [sscanf] returned < 1 *)
  | Hello
  | Req (req_lc req_pid : Z)
  | Ack (ack_l from for_req_lc for_req_pid : Z)
  | Rel (rel_lc req_lc req_pid : Z)
  | Other.                                         (* no [strcmp] matched *)

#[global] Instance Msg_eq_dec : EqDecision Msg.
Proof. solve_decision. Defined.

Definition decode (junk : Junk) (line : string) : Msg :=
  let '(n, type, assigned) := sscanf_line line in
  if n <? 1 then Dropped
  else
    let a := default (junk_a junk) (assigned !! 0%nat) in
    let b := default (junk_b junk) (assigned !! 1%nat) in
    let c := default (junk_c junk) (assigned !! 2%nat) in
    let d := default (junk_d junk) (assigned !! 3%nat) in
    if String.eqb type "HELLO" then Hello
    else if String.eqb type "REQ" then Req a b
    else if String.eqb type "ACK" then Ack a b c d
    else if String.eqb type "REL" then Rel a b c
    else Other.

(** ** Writing a line: the [snprintf] formats *)

Definition newline : string := String (ascii_of_nat 10) EmptyString.

Definition fmt_req (my_req_lc my_pid : Z) : string :=
  "REQ " +:+ pretty my_req_lc +:+ " " +:+ pretty my_pid +:+ newline.

Definition fmt_ack (mylc my_pid req_lc req_pid : Z) : string :=
  "ACK " +:+ pretty mylc +:+ " " +:+ pretty my_pid +:+ " "
         +:+ pretty req_lc +:+ " " +:+ pretty req_pid +:+ newline.

Definition fmt_rel (rel_l my_req_lc my_pid : Z) : string :=
  "REL " +:+ pretty rel_l +:+ " " +:+ pretty my_req_lc +:+ " "
         +:+ pretty my_pid +:+ newline.

(** ** One peer *)

Record Peer : Type := mkPeer {
  N : Z;
  my_pid : Z;
  lc : Z;
  queue_head : list ReqEntry;
  ack_lc : list Z;
  releases_seen : list Z
}.

Definition with_lc (v : Z) (s : Peer) : Peer :=
  mkPeer (N s) (my_pid s) v (queue_head s) (ack_lc s) (releases_seen s).
Definition with_queue (q : list ReqEntry) (s : Peer) : Peer :=
  mkPeer (N s) (my_pid s) (lc s) q (ack_lc s) (releases_seen s).
Definition with_ack (a : list Z) (s : Peer) : Peer :=
  mkPeer (N s) (my_pid s) (lc s) (queue_head s) a (releases_seen s).
Definition with_releases (r : list Z) (s : Peer) : Peer :=
  mkPeer (N s) (my_pid s) (lc s) (queue_head s) (ack_lc s) r.

(** State of a process when [main] reaches [run_instructions]: the globals
    are zero-initialised. *)
Definition peer_init (n pid : Z) : Peer :=
  mkPeer n pid 0 [] (replicate (Z.to_nat MAX_PEERS) 0) (replicate (Z.to_nat MAX_PEERS) 0).

(** The arrays have their declared size, [N] passed the check of [main], and
    the process id is one of the ids the launcher hands out. *)
Definition peer_ok (s : Peer) : Prop :=
  length (ack_lc s) = Z.to_nat MAX_PEERS ∧
  length (releases_seen s) = Z.to_nat MAX_PEERS ∧
  0 < N s ≤ MAX_PEERS ∧
  0 ≤ my_pid s < N s.

(** A line on its way to the listening port of peer [dst]. *)
Record Packet : Type := mkPacket { dst : Z; payload : string }.

(** [send_short]; a connection that fails loses the line, which the model
    leaves to the network. *)
Definition send_short (pid : Z) (msg : string) (s : Peer) : list Packet :=
  if (pid <? 0) || (pid >=? N s) then [] else [mkPacket pid msg].

Definition broadcast_short (msg : string) (s : Peer) : list Packet :=
  i ← seqZ 0 (N s);
  if i =? my_pid s then [] else send_short i msg s.

(** The bodies of the branches of [process_line]. *)
Definition handle (m : Msg) (s : Peer) : option (Peer * list Packet) :=
  match m with
  | Dropped | Hello | Other => Some (s, [])
  | Req req_lc req_pid =>
      let '(_, lc1) := update_lc_on_receive req_lc (lc s) in
      let q := queue_insert req_lc req_pid (queue_head s) in
      let '(mylc, lc2) := inc_lc lc1 in
      let buf := fmt_ack mylc (my_pid s) req_lc req_pid in
      let s' := with_queue q (with_lc lc2 s) in
      Some (s', send_short req_pid buf s')
  | Ack ack_l from for_req_lc for_req_pid =>
      let '(_, lc1) := update_lc_on_receive ack_l (lc s) in
      if for_req_pid =? my_pid s then
        acks ← set_ack from ack_l (ack_lc s);
        Some (with_ack acks (with_lc lc1 s), [])
      else Some (with_lc lc1 s, [])
  | Rel rel_lc req_lc req_pid =>
      let '(_, lc1) := update_lc_on_receive rel_lc (lc s) in
      let q := queue_remove req_lc req_pid (queue_head s) in
      rels ← inc_release_seen req_pid (releases_seen s);
      Some (with_releases rels (with_queue q (with_lc lc1 s)), [])
  end.

Definition process_line (junk : Junk) (line : string) (s : Peer)
  : option (Peer * list Packet) :=
  handle (decode junk line) s.

(** ** The lock cycle [do_request]

    The function is cut at the points where other threads of the process
    can run between two of its statements: after the first [inc_lc], after
    the broadcast of the request (the polling loop), and around the call of
    the external [./critical]. *)

(** [int my_req_lc = inc_lc();] *)
Definition do_request_tick (s : Peer) : Z * Peer :=
  let '(my_req_lc, lc1) := inc_lc (lc s) in (my_req_lc, with_lc lc1 s).

(** [queue_insert], the reset of the ack table, and the broadcast of REQ. *)
Definition do_request_post (my_req_lc : Z) (s : Peer) : option (Peer * list Packet) :=
  let q := queue_insert my_req_lc (my_pid s) (queue_head s) in
  acks ← ack_reset (N s) (my_pid s) my_req_lc (ack_lc s);
  let msg := fmt_req my_req_lc (my_pid s) in
  let s' := with_ack acks (with_queue q s) in
  Some (s', broadcast_short msg s').

(** One round of the polling loop: [true] when the loop is left by [break].
    The round calls [queue_head_is], which takes [queue_m], and only when
    that returned 1 calls [all_acks_ge], which takes [ack_m]; handler
    threads can run between the two calls.  [at_head] is the state of the
    process when the queue is looked at, [at_acks] the state when the ack
    table is. *)
Definition polling_round (my_req_lc : Z) (at_head at_acks : Peer) : option bool :=
  if negb (queue_head_is my_req_lc (my_pid at_head) (queue_head at_head)) then Some false
  else all_acks_ge (N at_acks) my_req_lc (ack_lc at_acks).

(** A round during which no other thread of the process changes the queue
    or the ack table: both calls find the state [s]. *)
Definition grant_test (my_req_lc : Z) (s : Peer) : option bool :=
  polling_round my_req_lc s s.

(** The release, after [system] has returned. *)
Definition do_request_release (my_req_lc : Z) (s : Peer) : option (Peer * list Packet) :=
  let q := queue_remove my_req_lc (my_pid s) (queue_head s) in
  let '(rel_l, lc1) := inc_lc (lc s) in
  let msg := fmt_rel rel_l my_req_lc (my_pid s) in
  rels ← inc_release_seen (my_pid s) (releases_seen s);
  let s' := with_releases rels (with_queue q (with_lc lc1 s)) in
  Some (s', broadcast_short msg s').

(** ** [do_wait]

    The handler threads change [releases_seen] while the loop sleeps; the
    loop sees the table once per round.  [polls] lists the table as each
    successive round finds it. *)

Inductive WaitOutcome : Type :=
  | Returned (rounds : nat)   (* left the loop in this round, counted from 1 *)
  | Polling.                  (* still in the loop after all the rounds given *)

Fixpoint do_wait_loop (other_pid seen : Z) (polls : list (list Z)) (round : nat)
  : option WaitOutcome :=
  match polls with
  | [] => Some Polling
  | table :: polls' =>
      now ← get_release_seen other_pid table;
      if now >? seen then Some (Returned round)
      else do_wait_loop other_pid seen polls' (S round)
  end.

Definition do_wait (other_pid : Z) (at_entry : list Z) (polls : list (list Z))
  : option WaitOutcome :=
  seen ← get_release_seen other_pid at_entry;
  do_wait_loop other_pid seen polls 1%nat.

(** ** A peer with its main thread *)

Inductive Phase : Type :=
  | Idle                        (* outside [do_request] *)
  | Ticked (my_req_lc : Z)      (* timestamp taken, request not yet queued *)
  | Waiting (my_req_lc : Z)     (* in the polling loop *)
  | Critical (my_req_lc : Z).   (* past [break], inside [./critical] *)

Record Node : Type := mkNode { peer : Peer; phase : Phase }.

(** Steps of the main thread. *)
Inductive Local : Type := DoTick | DoPost | DoGrant | DoRelease.

(** What can happen at one peer: a reader thread hands a line to
    [process_line], or the main thread takes its next step. *)
Inductive Event : Type :=
  | Recv (junk : Junk) (line : string)
  | Act (l : Local).

(** [None]: the step is not possible in this state (or ran out of an array). *)
Definition local_step (l : Local) (nd : Node) : option (Node * list Packet) :=
  match l, phase nd with
  | DoTick, Idle =>
      let '(my_req_lc, s') := do_request_tick (peer nd) in
      Some (mkNode s' (Ticked my_req_lc), [])
  | DoPost, Ticked my_req_lc =>
      '(s', out) ← do_request_post my_req_lc (peer nd);
      Some (mkNode s' (Waiting my_req_lc), out)
  | DoGrant, Waiting my_req_lc =>
      ok ← grant_test my_req_lc (peer nd);
      if ok : bool then Some (mkNode (peer nd) (Critical my_req_lc), []) else None
  | DoRelease, Critical my_req_lc =>
      '(s', out) ← do_request_release my_req_lc (peer nd);
      Some (mkNode s' Idle, out)
  | _, _ => None
  end.

Definition peer_step (ev : Event) (nd : Node) : option (Node * list Packet) :=
  match ev with
  | Recv junk line =>
      '(s', out) ← process_line junk line (peer nd);
      Some (mkNode s' (phase nd), out)
  | Act l => local_step l nd
  end.

Definition in_critical (nd : Node) : bool :=
  match phase nd with Critical _ => true | _ => false end.

(** ** Several peers and the lines in flight

    Every line travels on a connection of its own and is read by a thread of
    its own, so the lines in flight are an unordered collection: any of them
    can be the next one handled.  The HELLO lines of [connector_thread] are
    left out: their branch of [process_line] does nothing. *)

Record System : Type := mkSystem { nodes : list Node; wire : list Packet }.

Inductive Action : Type :=
  | Main (p : nat) (l : Local)          (* the main thread of peer [p] moves *)
  | Deliver (k : nat) (junk : Junk).    (* the [k]-th line in flight is handled *)

Definition step (a : Action) (sys : System) : option System :=
  match a with
  | Main p l =>
      nd ← nodes sys !! p;
      '(nd', out) ← local_step l nd;
      Some (mkSystem (<[p := nd']> (nodes sys)) (wire sys ++ out))
  | Deliver k junk =>
      pkt ← wire sys !! k;
      if dst pkt <? 0 then None
      else
        let p := Z.to_nat (dst pkt) in
        nd ← nodes sys !! p;
        '(nd', out) ← peer_step (Recv junk (payload pkt)) nd;
        Some (mkSystem (<[p := nd']> (nodes sys)) (delete k (wire sys) ++ out))
  end.

Fixpoint run (acts : list Action) (sys : System) : option System :=
  match acts with
  | [] => Some sys
  | a :: acts' => sys' ← step a sys; run acts' sys'
  end.

Definition system_init (n : nat) : System :=
  mkSystem ((λ i, mkNode (peer_init (Z.of_nat n) (Z.of_nat i)) Idle) <$> seq 0 n) [].

(** Number of peers inside [./critical]. *)
Definition critical_count (sys : System) : nat :=
  length (filter (λ nd, in_critical nd = true) (nodes sys)).

(** ** Outstanding requests, as the history of one peer determines them

    The ledger maps a peer id to the timestamp of its request that this peer
    has learnt of (by a REQ line, or by queueing its own) and that has not
    been released since (by a REL line with the same timestamp and id, or by
    the peer's own release).  It is computed from the events alone and never
    looks at the queue. *)

Definition ledger_release (req_lc req_pid : Z) (led : gmap Z Z) : gmap Z Z :=
  if decide (led !! req_pid = Some req_lc) then delete req_pid led else led.

Definition ledger_step (ev : Event) (nd : Node) (led : gmap Z Z) : gmap Z Z :=
  match ev with
  | Recv junk line =>
      match decode junk line with
      | Req req_lc req_pid => <[req_pid := req_lc]> led
      | Rel _ req_lc req_pid => ledger_release req_lc req_pid led
      | _ => led
      end
  | Act DoPost =>
      match phase nd with
      | Ticked my_req_lc => <[my_pid (peer nd) := my_req_lc]> led
      | _ => led
      end
  | Act DoRelease =>
      match phase nd with
      | Critical my_req_lc => ledger_release my_req_lc (my_pid (peer nd)) led
      | _ => led
      end
  | Act _ => led
  end.

(** One outstanding request per peer, as this peer sees it: a request of a
    peer is only learnt of while the ledger holds none for that peer, that
    is after the release of the peer's previous request has been handled
    here.  This constrains the order in which lines are handled, and is
    more than every peer making one request at a time (see
    [release_overtaken] below). *)
Definition one_at_a_time (ev : Event) (nd : Node) (led : gmap Z Z) : bool :=
  match ev with
  | Recv junk line =>
      match decode junk line with
      | Req _ req_pid => bool_decide (led !! req_pid = None)
      | _ => true
      end
  | Act DoPost => bool_decide (led !! my_pid (peer nd) = None)
  | Act _ => true
  end.

(** The events of [evs] at one peer, from [nd] on, each checked against the
    discipline before it is taken. *)
Fixpoint replay (evs : list Event) (nd : Node) (led : gmap Z Z)
  : option (Node * gmap Z Z) :=
  match evs with
  | [] => Some (nd, led)
  | ev :: evs' =>
      if one_at_a_time ev nd led then
        '(nd', _) ← peer_step ev nd;
        replay evs' nd' (ledger_step ev nd led)
      else None
  end.


(** ** Two schedules of two peers that both ask for the lock

    [no_junk]: the lines of these schedules fill every field, so the
    initial contents of the locals never show. *)
Definition no_junk : Junk := mkJunk 0 0 0 0.

(** Every line is handled in the order it was sent (always the oldest line
    in flight).  Peer 0 takes its timestamp, and is then overtaken by the
    whole of peer 1's request before it queues and announces its own. *)
Definition late_queueing : list Action :=
  [ Main 0 DoTick;            (* peer 0: my_req_lc = inc_lc() = 1 *)
    Main 1 DoTick;            (* peer 1: my_req_lc = inc_lc() = 1 *)
    Main 1 DoPost;            (* peer 1 queues (1,1), sends REQ 1 1 *)
    Deliver 0 no_junk;        (* peer 0 handles REQ 1 1, sends ACK 3 0 1 1 *)
    Deliver 0 no_junk;        (* peer 1 records the ACK of peer 0 *)
    Main 1 DoGrant;           (* peer 1: head (1,1), all acks >= 1 *)
    Main 0 DoPost;            (* peer 0 queues (1,0), sends REQ 1 0 *)
    Deliver 0 no_junk;        (* peer 1 handles REQ 1 0, sends ACK 5 1 1 0 *)
    Deliver 0 no_junk;        (* peer 0 records the ACK of peer 1 *)
    Main 0 DoGrant ].         (* peer 0: head (1,0), all acks >= 1 *)

(** Both peers run [do_request] up to the polling loop without
    interruption; the reader thread of peer 1 that holds the REQ of peer 0
    runs after the one that holds the later ACK of peer 0. *)
Definition overtaking : list Action :=
  [ Main 0 DoTick; Main 0 DoPost;   (* REQ 1 0 in flight to peer 1 *)
    Main 1 DoTick; Main 1 DoPost;   (* REQ 1 1 in flight to peer 0 *)
    Deliver 1 no_junk;              (* peer 0 handles REQ 1 1, sends ACK 3 0 1 1 *)
    Deliver 1 no_junk;              (* peer 1 handles that ACK first *)
    Main 1 DoGrant;                 (* peer 1: head (1,1), all acks >= 1 *)
    Deliver 0 no_junk;              (* peer 1 now handles REQ 1 0, sends ACK 5 1 1 0 *)
    Deliver 0 no_junk;              (* peer 0 records the ACK of peer 1 *)
    Main 0 DoGrant ].               (* peer 0: head (1,0), all acks >= 1 *)


(** Mutual exclusion, over every schedule of every number of peers. *)
Definition mutual_exclusion : Prop :=
  ∀ (n : nat) (acts : list Action) (sys : System),
    run acts (system_init n) = Some sys → (critical_count sys ≤ 1)%nat.

(** ** Clock operations of the other threads

    Between two statements of one thread the other threads of the process
    can call [inc_lc] and [update_lc_on_receive] any number of times. *)

Inductive ClockOp : Type :=
  | Tick
  | Observe (remote_lc : Z).

Definition clock_op (lc : Z) (op : ClockOp) : Z :=
  match op with
  | Tick => (inc_lc lc).2
  | Observe remote_lc => (update_lc_on_receive remote_lc lc).2
  end.

Definition clock_ops (ops : list ClockOp) (lc : Z) : Z := foldl clock_op lc ops.

(** Every operation of the list starts below [INT_MAX] and observes a
    timestamp below [INT_MAX]: none of them wraps. *)
Fixpoint ops_in_range (ops : list ClockOp) (lc : Z) : Prop :=
  match ops with
  | [] => True
  | op :: ops' =>
      lc < INT_MAX ∧
      match op with
      | Tick => True
      | Observe remote_lc => in_int remote_lc ∧ remote_lc < INT_MAX
      end ∧
      ops_in_range ops' (clock_op lc op)
  end.

(** A release table in which peer 0 has been seen to release [count] times
    and nobody else has released. *)
Definition releases_of_peer0 (count : Z) : list Z :=
  <[0%nat := count]> (replicate (Z.to_nat MAX_PEERS) 0).

(** ** Reader and connector threads *)

(** [conn_reader]: every line [fgets] returns from the connection goes to
    [process_line], in order; each call has locals of its own. *)
Fixpoint conn_reader (lines : list (Junk * string)) (s : Peer)
  : option (Peer * list Packet) :=
  match lines with
  | [] => Some (s, [])
  | (junk, buf) :: lines' =>
      '(s1, out1) ← process_line junk buf s;
      '(s2, out2) ← conn_reader lines' s1;
      Some (s2, out1 ++ out2)
  end.

Definition fmt_hello (my_pid : Z) : string :=
  "HELLO " +:+ pretty my_pid +:+ newline.

(** [connector_thread]: one HELLO line to every other peer, in ascending
    order of id (each after as many retries as the connection takes). *)
Definition connector_thread (s : Peer) : list Packet :=
  i ← seqZ 0 (N s);
  if i =? my_pid s then [] else [mkPacket i (fmt_hello (my_pid s))].

(** ** The instruction file *)

(** The text [getline] returns call after call: each line with its newline,
    the last one possibly without. *)
Fixpoint getlines (text : string) : list string :=
  match text with
  | EmptyString => []
  | String c r =>
      if Ascii.eqb c (ascii_of_nat 10) then String c EmptyString :: getlines r
      else
        match getlines r with
        | [] => [String c EmptyString]
        | l :: ls => String c l :: ls
        end
  end.

Inductive Command : Type :=
  | Lock (duration : Z)
  | Wait (other_pid : Z).

#[global] Instance Command_eq_dec : EqDecision Command.
Proof. solve_decision. Defined.

(** One round of the loop of [run_instructions]: what the line makes this
    process do, if anything.  [sscanf(line, "%d %63s %d", &target, cmd, &arg)]
    gives [parsed]; [target] is read only when [parsed >= 2] and [arg] only
    when [parsed >= 3], so no unassigned value is ever used. *)
Definition instruction (my_pid : Z) (line : string) : option Command :=
  if (String.length line <=? 1)%nat then None
  else
    match scan_int line with
    | None => None
    | Some (target, rest) =>
        match skip_space rest with
        | EmptyString => None
        | s =>
            let '(cmd, rest') := scan_word 63 s in
            let arg := scan_int rest' in
            if negb (target =? my_pid) then None
            else if String.eqb cmd "Lock" then
              Some (Lock (match arg with Some (v, _) => v | None => 1 end))
            else if String.eqb cmd "Wait" then
              Some (Wait (match arg with Some (v, _) => v | None => 0 end))
            else None
        end
    end.

(** [run_instructions]: the first line is skipped, the others are taken in
    order; the result lists the calls of [do_request] and [do_wait] the main
    thread makes. *)
Definition run_instructions (my_pid : Z) (text : string) : list Command :=
  omap (instruction my_pid) (tail (getlines text)).

(** ** Start of a process: [main] of [process.c] *)

(** [atoi], in glibc [(int) strtol(s, NULL, 10)]: the leading integer of the
    text, converted as [%d] converts it; 0 when there is none. *)
Definition atoi (s : string) : Z :=
  match scan_int s with
  | Some (v, _) => v
  | None => 0
  end.

Inductive Startup : Type :=
  | Usage                        (* fewer than two arguments *)
  | CannotOpen                   (* [fopen] failed *)
  | BadInput                     (* the file does not begin with a number *)
  | BadN                         (* [N <= 0 || N > MAX_PEERS] *)
  | Started (s : Peer) (script : list Command).

(** [argv] with the program name first; [contents] is the text of the file
    [argv[2]] names, if it can be opened.  [Started] gives the state in
    which the threads are created and the calls [run_instructions] makes. *)
Definition main (argv : list string) (contents : option string) : Startup :=
  if (length argv <? 3)%nat then Usage
  else
    let my_pid := atoi (default EmptyString (argv !! 1%nat)) in
    match contents with
    | None => CannotOpen
    | Some text =>
        match scan_int text with
        | None => BadInput
        | Some (n, _) =>
            if (n <=? 0) || (n >? MAX_PEERS) then BadN
            else Started (peer_init n my_pid) (run_instructions my_pid text)
        end
    end.

(** ** The launcher: [main] of [run_local.c]

    [fork], [open] and [execl] are taken to succeed. *)

Record Child : Type := mkChild {
  child_argv : list string;     (* what [execl] passes to [./process] *)
  child_out : string            (* the file its output goes to *)
}.

Inductive Launch : Type :=
  | LaunchUsage
  | LaunchCannotOpen
  | LaunchBadInput
  | LaunchBadN                   (* [N <= 0] *)
  | Spawned (children : list Child).

Definition spawn (input : string) (i : Z) : Child :=
  mkChild ["./process"; pretty i; input] ("proc_" +:+ pretty i +:+ ".out").

Definition run_local (argv : list string) (contents : option string) : Launch :=
  if (length argv <? 2)%nat then LaunchUsage
  else
    let input := default EmptyString (argv !! 1%nat) in
    match contents with
    | None => LaunchCannotOpen
    | Some text =>
        match scan_int text with
        | None => LaunchBadInput
        | Some (n, _) =>
            if n <=? 0 then LaunchBadN
            else Spawned (spawn input <$> seqZ 0 n)
        end
    end.

(** Recording a list of acknowledgements [(from, value)] one after the
    other, as the ACK branch does for the ACKs of the current request. *)
Fixpoint record_acks (acks : list (Z * Z)) (ack_lc : list Z) : option (list Z) :=
  match acks with
  | [] => Some ack_lc
  | (from, value) :: acks' =>
      ack_lc' ← set_ack from value ack_lc;
      record_acks acks' ack_lc'
  end.

(** The Lamport timestamp a message carries, if it carries one. *)
Definition stamp (m : Msg) : option Z :=
  match m with
  | Req req_lc _ => Some req_lc
  | Ack ack_l _ _ _ => Some ack_l
  | Rel rel_lc _ _ => Some rel_lc
  | Dropped | Hello | Other => None
  end.

(** A file as the concatenation of its lines. *)
Definition file_of_lines (lines : list string) : string :=
  foldr String.append EmptyString lines.

(** The text is one line: it ends with a newline and holds no other. *)
Fixpoint single_line (l : string) : bool :=
  match l with
  | EmptyString => false
  | String c r =>
      if Ascii.eqb c (ascii_of_nat 10) then
        match r with EmptyString => true | String _ _ => false end
      else single_line r
  end.

(** A system of [n] peers in good order: peer [i] of the list is a
    well-formed peer with id [i] that knows of [n] peers, and every line in
    flight is addressed to one of them. *)
Definition system_ok (n : nat) (sys : System) : Prop :=
  length (nodes sys) = n ∧
  (∀ (i : nat) nd, nodes sys !! i = Some nd →
     peer_ok (peer nd) ∧ N (peer nd) = Z.of_nat n ∧ my_pid (peer nd) = Z.of_nat i) ∧
  Forall (λ pkt, 0 ≤ dst pkt < Z.of_nat n) (wire sys).

(** * Properties *)

(** ** C integers *)

Ltac int_range := unfold in_int, INT_MIN, INT_MAX, MAX_PEERS in *; lia.

Lemma wrap_in_int (z : Z) : in_int z → wrap z = z.
Proof.
  unfold in_int, INT_MIN, INT_MAX, wrap. intros [Hlo Hhi].
  rewrite Z.mod_small by lia. lia.
Qed.

(** A number that fits an [int] is read as it is written. *)
Lemma wrap_clamp_in_int (z : Z) : in_int z → wrap (clamp_long z) = z.
Proof.
  intros Hz. unfold clamp_long, LONG_MIN, LONG_MAX.
  rewrite Z.min_r, Z.max_r by int_range. by apply wrap_in_int.
Qed.

Lemma wrap_range (z : Z) : in_int (wrap z).
Proof.
  unfold in_int, INT_MIN, INT_MAX, wrap.
  pose proof (Z.mod_pos_bound (z + 2147483648) 4294967296 ltac:(lia)). lia.
Qed.

(** ** Lamport clock *)

Lemma inc_lc_no_overflow (c : Z) :
  in_int c → c < INT_MAX → inc_lc c = (c + 1, c + 1).
Proof.
  intros Hc Hlt. unfold inc_lc. rewrite wrap_in_int; [done|].
  unfold in_int, INT_MIN, INT_MAX in *. lia.
Qed.

Lemma update_lc_on_receive_behind (r c : Z) :
  r < c → update_lc_on_receive r c = (c, c).
Proof.
  intros Hlt. unfold update_lc_on_receive.
  destruct (Z.geb_spec r c); [lia | done].
Qed.

Lemma update_lc_on_receive_ahead (r c : Z) :
  in_int r → r < INT_MAX → c ≤ r → update_lc_on_receive r c = (r + 1, r + 1).
Proof.
  intros Hr Hlt Hle. unfold update_lc_on_receive.
  destruct (Z.geb_spec r c); [|lia].
  rewrite wrap_in_int; [done|]. unfold in_int, INT_MIN, INT_MAX in *. lia.
Qed.

(** C3, as the code has it.  On values below [INT_MAX], [inc_lc] strictly
    increases the clock and returns the new value, and
    [update_lc_on_receive] never decreases it: a remote timestamp [r ≥ c]
    sets the clock to [r + 1 = max c (r + 1)], which is returned; a remote
    timestamp [r < c] leaves the clock at [c] (this case for every [r]). *)
Theorem clock_monotone_below_INT_MAX (c r : Z) :
  in_int c → in_int r →
  (c < INT_MAX → inc_lc c = (c + 1, c + 1) ∧ c < (inc_lc c).2) ∧
  (r < INT_MAX →
     c ≤ (update_lc_on_receive r c).2 ∧
     (update_lc_on_receive r c).1 = (update_lc_on_receive r c).2 ∧
     (c ≤ r → (update_lc_on_receive r c).2 = r + 1 ∧ r + 1 = Z.max c (r + 1))) ∧
  (r < c → update_lc_on_receive r c = (c, c)).
Proof.
  intros Hc Hr. split_and!.
  - intros Hlt. rewrite inc_lc_no_overflow by done. simpl. split; [done | lia].
  - intros Hlt. destruct (Z.le_gt_cases c r) as [Hle | Hgt].
    + rewrite update_lc_on_receive_ahead by done. simpl. split_and!; [lia | done | lia].
    + rewrite update_lc_on_receive_behind by lia. simpl. split_and!; [lia | done | lia].
  - apply update_lc_on_receive_behind.
Qed.

Lemma clock_monotone_below_INT_MAX_witness :
  in_int 4 ∧ in_int 9 ∧
  (4 < INT_MAX → inc_lc 4 = (4 + 1, 4 + 1) ∧ 4 < (inc_lc 4).2) ∧
  (9 < INT_MAX →
     4 ≤ (update_lc_on_receive 9 4).2 ∧
     (update_lc_on_receive 9 4).1 = (update_lc_on_receive 9 4).2 ∧
     (4 ≤ 9 → (update_lc_on_receive 9 4).2 = 9 + 1 ∧ 9 + 1 = Z.max 4 (9 + 1))) ∧
  (9 < 4 → update_lc_on_receive 9 4 = (4, 4)).
Proof.
  assert (H4 : in_int 4) by int_range.
  assert (H9 : in_int 9) by int_range.
  split; [exact H4 | split; [exact H9 |]].
  exact (clock_monotone_below_INT_MAX 4 9 H4 H9).
Defined.

(** The clock under the operations of other threads. *)
Lemma clock_op_monotone (lc : Z) (op : ClockOp) :
  in_int lc → lc < INT_MAX →
  match op with Tick => True | Observe r => in_int r ∧ r < INT_MAX end →
  lc ≤ clock_op lc op ∧ in_int (clock_op lc op).
Proof.
  intros Hlc Hlt Hop. destruct op as [|r]; unfold clock_op.
  - rewrite inc_lc_no_overflow by done. simpl. int_range.
  - destruct Hop as [Hr Hrlt]. destruct (Z.le_gt_cases lc r).
    + rewrite update_lc_on_receive_ahead by done. simpl. int_range.
    + rewrite update_lc_on_receive_behind by lia. simpl. int_range.
Qed.

Lemma clock_ops_monotone (ops : list ClockOp) (lc : Z) :
  in_int lc → ops_in_range ops lc →
  lc ≤ clock_ops ops lc ∧ in_int (clock_ops ops lc).
Proof.
  revert lc. induction ops as [|op ops IH]; intros lc Hlc; simpl.
  - intros _. split; [lia | done].
  - intros (Hlt & Hop & Hrest).
    destruct (clock_op_monotone lc op Hlc Hlt Hop) as [Hle Hin].
    destruct (IH _ Hin Hrest) as [Hle' Hin'].
    unfold clock_ops in *. simpl. split; [lia | done].
Qed.

(** X10.  Whatever the other threads do to the clock between the
    [update_lc_on_receive] and the [inc_lc] of the REQ branch, the value
    that [inc_lc] returns is above the request's timestamp, as long as
    nothing wraps. *)
Lemma inc_after_observe_interleaved (ts lc : Z) (ops : list ClockOp) :
  in_int lc → in_int ts → ts < INT_MAX →
  ops_in_range ops (update_lc_on_receive ts lc).2 →
  clock_ops ops (update_lc_on_receive ts lc).2 < INT_MAX →
  ts < (inc_lc (clock_ops ops (update_lc_on_receive ts lc).2)).1.
Proof.
  intros Hlc Hts Htsmax Hops Hend.
  assert (ts < (update_lc_on_receive ts lc).2 ∧ in_int (update_lc_on_receive ts lc).2)
    as [Hobs Hin].
  { destruct (Z.le_gt_cases lc ts).
    - rewrite update_lc_on_receive_ahead by done. simpl. int_range.
    - rewrite update_lc_on_receive_behind by lia. simpl. split; [lia | done]. }
  destruct (clock_ops_monotone ops _ Hin Hops) as [Hle Hin'].
  rewrite inc_lc_no_overflow by done. cbn [fst]. lia.
Qed.

(** At [INT_MAX] the 32-bit addition wraps: a tick takes the clock from the
    largest value to the smallest, and observing the remote timestamp
    [INT_MAX] takes the clock from 0 down to [INT_MIN]. *)
Lemma clock_wraps_at_INT_MAX :
  inc_lc 2147483647 = (-2147483648, -2147483648) ∧
  ¬ (2147483647 < (inc_lc 2147483647).2) ∧
  update_lc_on_receive 2147483647 0 = (-2147483648, -2147483648) ∧
  ¬ (0 ≤ (update_lc_on_receive 2147483647 0).2) ∧
  (update_lc_on_receive 2147483647 0).2 ≠ Z.max 0 (2147483647 + 1).
Proof. vm_compute. split_and!; congruence. Qed.

(** ** Request queue *)

Section queue.
Implicit Types (q : list ReqEntry) (e x y : ReqEntry) (ts pid : Z).

Lemma key_le_refl x : key_le x x.
Proof. unfold key_le. lia. Qed.

Lemma key_le_trans x y z : key_le x y → key_le y z → key_le x z.
Proof. unfold key_le. lia. Qed.

Lemma key_le_total x y : key_le x y ∨ key_le y x.
Proof. unfold key_le. lia. Qed.

Lemma key_le_antisym x y : key_le x y → key_le y x → x = y.
Proof.
  destruct x as [a b], y as [c d]. unfold key_le. simpl.
  intros H1 H2. f_equal; lia.
Qed.

Lemma key_leb_le x y : key_leb x y = true ↔ key_le x y.
Proof.
  unfold key_leb, key_le.
  rewrite orb_true_iff, andb_true_iff, Z.ltb_lt, Z.eqb_eq, Z.leb_le. done.
Qed.

(** The loop passes exactly the entries strictly below the new key. *)
Lemma walks_past_lt e ts pid :
  walks_past e ts pid = true ↔ ¬ key_le (mkReq ts pid) e.
Proof.
  unfold walks_past, key_le. simpl.
  rewrite orb_true_iff, andb_true_iff, !Z.ltb_lt, Z.eqb_eq. lia.
Qed.

Lemma same_key_eq e ts pid : same_key e ts pid = true ↔ e = mkReq ts pid.
Proof.
  destruct e as [a b]. unfold same_key. simpl.
  rewrite andb_true_iff, !Z.eqb_eq. split; [intros [-> ->]; done | intros [=]; done].
Qed.

Lemma walks_past_not_same e ts pid :
  walks_past e ts pid = true → same_key e ts pid = false.
Proof.
  intros Hw. apply not_true_is_false. intros Hs.
  apply same_key_eq in Hs as ->. apply walks_past_lt in Hw.
  apply Hw, key_le_refl.
Qed.

Lemma queue_insert_perm ts pid q : queue_insert ts pid q ≡ₚ mkReq ts pid :: q.
Proof.
  induction q as [|e q IH]; simpl; [done|].
  destruct (walks_past e ts pid); [|done].
  rewrite IH. apply Permutation_swap.
Qed.

Lemma queue_insert_HdRel x ts pid q :
  HdRel key_le x q → key_le x (mkReq ts pid) →
  HdRel key_le x (queue_insert ts pid q).
Proof.
  intros Hhd Hx. destruct q as [|e q]; simpl.
  - by constructor.
  - destruct (walks_past e ts pid); constructor; [|done].
    by inversion Hhd.
Qed.

Lemma queue_insert_Sorted ts pid q :
  Sorted key_le q → Sorted key_le (queue_insert ts pid q).
Proof.
  induction 1 as [|e q Hs IH Hhd]; simpl.
  - repeat constructor.
  - destruct (walks_past e ts pid) eqn:Hw.
    + constructor; [done|]. apply queue_insert_HdRel; [done|].
      apply walks_past_lt in Hw. destruct (key_le_total e (mkReq ts pid)); done.
    + constructor; [by constructor|]. constructor.
      apply not_true_iff_false in Hw. rewrite walks_past_lt in Hw.
      unfold key_le in *. simpl in *. lia.
Qed.

(** [queue_min] is a least entry of the queue. *)
Lemma queue_min_least q m :
  queue_min q = Some m → m ∈ q ∧ ∀ e, e ∈ q → key_le m e.
Proof.
  revert m. induction q as [|x q IH]; intros m; simpl; [done|].
  destruct (queue_min q) as [m'|] eqn:Hm.
  - destruct (IH m' eq_refl) as [Hin Hle].
    destruct (key_leb x m') eqn:Hc; intros [= <-].
    + apply key_leb_le in Hc. split; [by left|].
      intros e [->|He]%elem_of_cons; [apply key_le_refl|].
      eapply key_le_trans; [done|]. by apply Hle.
    + split; [by right|].
      intros e [->|He]%elem_of_cons; [|by apply Hle].
      destruct (key_le_total m' x) as [|Hxm]; [done|].
      apply key_leb_le in Hxm. congruence.
  - intros [= <-]. destruct q; [|simpl in Hm; destruct (queue_min q); [destruct key_leb|]; done].
    split; [by left|]. intros e [->|He]%elem_of_cons; [apply key_le_refl|].
    by apply elem_of_nil in He.
Qed.

Lemma queue_min_nil q : queue_min q = None ↔ q = [].
Proof.
  destruct q as [|x q]; simpl; [done|].
  destruct (queue_min q); [destruct key_leb|]; done.
Qed.

(** In a sorted queue the minimum is the head. *)
Lemma queue_min_Sorted e q : Sorted key_le (e :: q) → queue_min (e :: q) = Some e.
Proof.
  intros Hs. apply Sorted_StronglySorted in Hs; [|intros x y z; apply key_le_trans].
  apply StronglySorted_inv in Hs as [_ Hall]. simpl.
  destruct (queue_min q) as [m|] eqn:Hm; [|done].
  apply queue_min_least in Hm as [Hin _].
  rewrite Forall_forall in Hall. apply Hall in Hin.
  apply key_leb_le in Hin. by rewrite Hin.
Qed.

Lemma queue_head_is_min ts pid q :
  Sorted key_le q →
  queue_head_is ts pid q = true ↔ q ≠ [] ∧ queue_min q = Some (mkReq ts pid).
Proof.
  intros Hs. destruct q as [|e q]; simpl queue_head_is.
  - split; [done | intros [? _]; done].
  - rewrite queue_min_Sorted by done. rewrite same_key_eq.
    split; [intros ->; done | intros [_ [=]]; done].
Qed.

(** C6.  Inserting into a queue sorted by ascending timestamp, ties by
    ascending peer id, gives a queue sorted in the same way that holds
    exactly the old entries and the new one; and on a sorted queue
    [queue_head_is] answers true exactly when the queue is not empty and
    its least entry is the given key. *)
Theorem queue_insert_keeps_order ts pid q :
  Sorted key_le q →
  Sorted key_le (queue_insert ts pid q) ∧
  queue_insert ts pid q ≡ₚ mkReq ts pid :: q ∧
  ∀ ts' pid',
    queue_head_is ts' pid' q = true ↔
    q ≠ [] ∧ queue_min q = Some (mkReq ts' pid').
Proof.
  intros Hs. split_and!.
  - by apply queue_insert_Sorted.
  - apply queue_insert_perm.
  - intros ts' pid'. by apply queue_head_is_min.
Qed.

(** C7.  [queue_insert] followed by [queue_remove] of the same key gives
    back the queue as it was, whatever it held. *)
Theorem queue_insert_remove ts pid q :
  queue_remove ts pid (queue_insert ts pid q) = q.
Proof.
  induction q as [|e q IH]; simpl.
  - unfold same_key. simpl. by rewrite !Z.eqb_refl.
  - destruct (walks_past e ts pid) eqn:Hw; simpl.
    + rewrite walks_past_not_same by done. by rewrite IH.
    + unfold same_key. simpl. by rewrite !Z.eqb_refl.
Qed.

(** [queue_remove] on its own. *)
Lemma queue_remove_absent ts pid q :
  mkReq ts pid ∉ q → queue_remove ts pid q = q.
Proof.
  induction q as [|e q IH]; simpl; [done|].
  intros Hnin. apply not_elem_of_cons in Hnin as [Hne Hnin].
  destruct (same_key e ts pid) eqn:Hk.
  - apply same_key_eq in Hk. congruence.
  - by rewrite IH.
Qed.

Lemma queue_remove_present ts pid q :
  mkReq ts pid ∈ q → q ≡ₚ mkReq ts pid :: queue_remove ts pid q.
Proof.
  induction q as [|e q IH]; simpl; [by intros ?%elem_of_nil|].
  intros Hin. destruct (same_key e ts pid) eqn:Hk.
  - apply same_key_eq in Hk as ->. done.
  - apply elem_of_cons in Hin as [Heq|Hin].
    + apply not_true_iff_false in Hk. rewrite same_key_eq in Hk. congruence.
    + rewrite (IH Hin) at 1. apply Permutation_swap.
Qed.
End queue.

Lemma queue_insert_keeps_order_witness :
  Sorted key_le [mkReq 1 0; mkReq 1 2; mkReq 4 1] ∧
  queue_insert 1 1 [mkReq 1 0; mkReq 1 2; mkReq 4 1]
    = [mkReq 1 0; mkReq 1 1; mkReq 1 2; mkReq 4 1] ∧
  Sorted key_le (queue_insert 1 1 [mkReq 1 0; mkReq 1 2; mkReq 4 1]).
Proof.
  assert (Hs : Sorted key_le [mkReq 1 0; mkReq 1 2; mkReq 4 1]).
  { repeat constructor; unfold key_le; simpl; lia. }
  split; [exact Hs | split; [reflexivity |]].
  exact (proj1 (queue_insert_keeps_order 1 1 _ Hs)).
Defined.

(** ** Arrays *)

Section arrays.
Implicit Types (a : list Z) (i v : Z).

Lemma array_read_Some a i :
  0 ≤ i < Z.of_nat (length a) → ∃ v, array_read a i = Some v ∧ a !! Z.to_nat i = Some v.
Proof.
  intros Hi. unfold array_read.
  destruct (Z.leb_spec 0 i); [|lia]. destruct (Z.ltb_spec i (Z.of_nat (length a))); [|lia].
  simpl. destruct (lookup_lt_is_Some_2 a (Z.to_nat i)) as [v Hv]; [lia|]. eauto.
Qed.

Lemma array_write_Some a i v :
  0 ≤ i < Z.of_nat (length a) → array_write a i v = Some (<[Z.to_nat i := v]> a).
Proof.
  intros Hi. unfold array_write.
  destruct (Z.leb_spec 0 i); [|lia]. by destruct (Z.ltb_spec i (Z.of_nat (length a))); [|lia].
Qed.

Lemma array_read_lookup a i v :
  array_read a i = Some v → 0 ≤ i < Z.of_nat (length a) ∧ a !! Z.to_nat i = Some v.
Proof.
  unfold array_read.
  destruct (Z.leb_spec 0 i); [|done]. destruct (Z.ltb_spec i (Z.of_nat (length a))); [|done].
  simpl. intros ?. split; [lia | done].
Qed.
End arrays.

(** ** Ack table *)

Section ack_table.
Implicit Types (acks : list Z) (n : nat) (i T : Z).

(** The clearing loop sets exactly the slots it visits. *)
Lemma ack_clear_from_spec n i acks :
  0 ≤ i → i + Z.of_nat n ≤ Z.of_nat (length acks) →
  ∃ acks', ack_clear_from n i acks = Some acks' ∧
    length acks' = length acks ∧
    ∀ j : nat, acks' !! j =
      if decide (i ≤ Z.of_nat j < i + Z.of_nat n) then Some ACK_SENTINEL else acks !! j.
Proof.
  revert i acks. induction n as [|n IH]; intros i acks Hi Hlen; simpl.
  - exists acks. split_and!; [done..|]. intros j. case_decide; [lia | done].
  - rewrite array_write_Some by lia. simpl.
    destruct (IH (i + 1) (<[Z.to_nat i := ACK_SENTINEL]> acks)) as (acks' & Hrun & Hl & Hlook);
      [lia | rewrite length_insert; lia |].
    exists acks'. split_and!; [done | by rewrite Hl, length_insert |].
    intros j. rewrite Hlook. destruct (decide (Z.of_nat j = i)) as [Heq|Hne].
    + subst i. rewrite Nat2Z.id.
      rewrite decide_False, decide_True by lia.
      apply list_lookup_insert_eq. lia.
    + rewrite list_lookup_insert_ne by lia.
      repeat case_decide; first [done | lia].
Qed.

Lemma all_acks_ge_from_true n i T acks :
  0 ≤ i → i + Z.of_nat n ≤ Z.of_nat (length acks) →
  (∀ (j : nat) v, i ≤ Z.of_nat j < i + Z.of_nat n → acks !! j = Some v → T ≤ v) →
  all_acks_ge_from n i T acks = Some true.
Proof.
  revert i. induction n as [|n IH]; intros i Hi Hlen Hall; simpl; [done|].
  destruct (array_read_Some acks i) as (v & -> & Hv); [lia|]. simpl.
  destruct (Z.ltb_spec v T) as [Hlt|_].
  - specialize (Hall (Z.to_nat i) v). rewrite Z2Nat.id in Hall by lia.
    specialize (Hall ltac:(lia) Hv). lia.
  - apply IH; [lia..|]. intros j w Hj. apply Hall. lia.
Qed.

Lemma all_acks_ge_from_false n i T acks (j : nat) v :
  0 ≤ i → i + Z.of_nat n ≤ Z.of_nat (length acks) →
  i ≤ Z.of_nat j < i + Z.of_nat n → acks !! j = Some v → v < T →
  all_acks_ge_from n i T acks = Some false.
Proof.
  revert i. induction n as [|n IH]; intros i Hi Hlen Hj Hv Hlt; simpl; [lia|].
  destruct (array_read_Some acks i) as (w & -> & Hw); [lia|]. simpl.
  destruct (Z.ltb_spec w T) as [|Hge]; [done|].
  apply IH; [lia..| |done|done].
  destruct (decide (Z.of_nat j = i)) as [<-|]; [|lia].
  rewrite Nat2Z.id in Hw. simplify_eq. lia.
Qed.

Lemma all_acks_ge_defined N T acks :
  N ≤ Z.of_nat (length acks) → is_Some (all_acks_ge N T acks).
Proof.
  intros HN. unfold all_acks_ge.
  assert (∀ n i, 0 ≤ i → i + Z.of_nat n ≤ Z.of_nat (length acks) →
            is_Some (all_acks_ge_from n i T acks)) as Hgen.
  { induction n as [|n IH]; intros i Hi Hlen; simpl; [done|].
    destruct (array_read_Some acks i) as (w & -> & Hw); [lia|]. simpl.
    destruct (w <? T); [done|]. apply IH; lia. }
  apply Hgen; lia.
Qed.

(** C4.  Right after the reset of [do_request] (slots [0 .. N-1] set to
    the sentinel, then the slot of the peer itself set to its request
    timestamp [T]), [all_acks_ge T] is true when [N = 1] and false for
    every larger [N]. *)
Theorem ack_reset_then_all_acks_ge (N me T : Z) acks :
  length acks = Z.to_nat MAX_PEERS →
  1 ≤ N ≤ MAX_PEERS → 0 ≤ me < N → 1 ≤ T →
  ∃ acks', ack_reset N me T acks = Some acks' ∧
           all_acks_ge N T acks' = Some (bool_decide (N = 1)).
Proof.
  intros Hlen HN Hme HT. unfold ack_reset, all_acks_ge.
  destruct (ack_clear_from_spec (Z.to_nat N) 0 acks) as (cleared & -> & Hl & Hlook);
    [lia | unfold MAX_PEERS in *; lia |]. simpl.
  rewrite array_write_Some by (unfold MAX_PEERS in *; lia).
  eexists; split; [done|].
  assert (Hl' : length (<[Z.to_nat me := T]> cleared) = length acks)
    by (by rewrite length_insert).
  case_bool_decide as Hone.
  - subst N. assert (me = 0) as -> by lia.
    apply all_acks_ge_from_true; [lia | unfold MAX_PEERS in *; lia |].
    intros j v Hj Hv. assert (j = 0%nat) as -> by lia.
    simpl in Hv. rewrite list_lookup_insert_eq in Hv by (unfold MAX_PEERS in *; lia).
    simplify_eq. lia.
  - set (j := if decide (me = 0) then 1%nat else 0%nat).
    apply (all_acks_ge_from_false _ _ _ _ j ACK_SENTINEL);
      [lia | unfold MAX_PEERS in *; lia | subst j; case_decide; lia | | unfold ACK_SENTINEL; lia].
    rewrite list_lookup_insert_ne by (subst j; case_decide; lia).
    rewrite Hlook. subst j. case_decide; [done|]. case_decide; lia.
Qed.
End ack_table.

Lemma ack_reset_then_all_acks_ge_witness :
  (∃ acks', ack_reset 1 0 7 (replicate 128 0) = Some acks' ∧
            all_acks_ge 1 7 acks' = Some true) ∧
  (∃ acks', ack_reset 3 2 7 (replicate 128 0) = Some acks' ∧
            all_acks_ge 3 7 acks' = Some false).
Proof.
  split.
  - apply (ack_reset_then_all_acks_ge 1 0 7 (replicate 128 0));
      [reflexivity | unfold MAX_PEERS; lia | lia | lia].
  - apply (ack_reset_then_all_acks_ge 3 2 7 (replicate 128 0));
      [reflexivity | unfold MAX_PEERS; lia | lia | lia].
Defined.

(** ** Guards of the table accessors *)

(** The functions that take an id test it before they index.  On tables of
    the declared size, [set_ack], [inc_release_seen] and [get_release_seen]
    stay inside the arrays for every id, and [all_acks_ge] does for every
    [N] up to [MAX_PEERS]; for an id outside [0 .. MAX_PEERS-1], [set_ack]
    and [inc_release_seen] change nothing and [get_release_seen] returns
    0. *)
Theorem table_accessors_guarded (id v : Z) (acks rels : list Z) :
  length acks = Z.to_nat MAX_PEERS →
  length rels = Z.to_nat MAX_PEERS →
  (is_Some (set_ack id v acks) ∧
   is_Some (inc_release_seen id rels) ∧
   is_Some (get_release_seen id rels) ∧
   ∀ n target, n ≤ MAX_PEERS → is_Some (all_acks_ge n target acks)) ∧
  (¬ (0 ≤ id < MAX_PEERS) →
   set_ack id v acks = Some acks ∧
   inc_release_seen id rels = Some rels ∧
   get_release_seen id rels = Some 0).
Proof.
  intros Ha Hr. unfold set_ack, inc_release_seen, get_release_seen.
  destruct (Z.ltb_spec id 0) as [Hneg|Hpos]; simpl.
  - split; [|done]. split_and!; [done..|].
    intros n target Hn. apply all_acks_ge_defined. unfold MAX_PEERS in *. lia.
  - destruct (Z.geb_spec id MAX_PEERS) as [Hbig|Hsmall]; simpl.
    + split; [|done]. split_and!; [done..|].
      intros n target Hn. apply all_acks_ge_defined. unfold MAX_PEERS in *. lia.
    + split; [|intros Hout; lia]. split_and!.
      * rewrite array_write_Some by (unfold MAX_PEERS in *; lia). done.
      * destruct (array_read_Some rels id) as (w & -> & _); [unfold MAX_PEERS in *; lia|].
        simpl. rewrite array_write_Some by (unfold MAX_PEERS in *; lia). done.
      * destruct (array_read_Some rels id) as (w & -> & _); [unfold MAX_PEERS in *; lia|].
        done.
      * intros n target Hn. apply all_acks_ge_defined. unfold MAX_PEERS in *. lia.
Qed.

Lemma table_accessors_guarded_witness :
  set_ack 128 5 (replicate 128 0) = Some (replicate 128 0) ∧
  inc_release_seen (-1) (replicate 128 0) = Some (replicate 128 0) ∧
  get_release_seen 4096 (replicate 128 0) = Some 0.
Proof.
  split_and!.
  - apply (table_accessors_guarded 128 5 (replicate 128 0) (replicate 128 0));
      [reflexivity | reflexivity | unfold MAX_PEERS; lia].
  - apply (table_accessors_guarded (-1) 5 (replicate 128 0) (replicate 128 0));
      [reflexivity | reflexivity | unfold MAX_PEERS; lia].
  - apply (table_accessors_guarded 4096 5 (replicate 128 0) (replicate 128 0));
      [reflexivity | reflexivity | unfold MAX_PEERS; lia].
Defined.

(** C10, on the code.  One operation on the ack table has no such test: the
    reset in [do_request] ends with [ack_lc[my_pid] = my_req_lc], and [main]
    takes [my_pid] from the command line and checks the range of [N] only.
    A process started with id 200 on a file for two peers starts, and its
    first [do_request] writes outside the 128 slots of [ack_lc]: the loop of
    the reset stays inside the table, the write of the own slot does not.
    [set_ack] with the same id and value leaves the table alone. *)
Theorem reset_indexes_outside_ack_table :
  main ["./process"; "200"; "input.txt"]
       (Some ("2" +:+ newline +:+ "200 Lock 1" +:+ newline))
    = Started (peer_init 2 200) [Lock 1] ∧
  do_request_tick (peer_init 2 200) = (1, with_lc 1 (peer_init 2 200)) ∧
  do_request_post 1 (with_lc 1 (peer_init 2 200)) = None ∧
  is_Some (ack_clear_from (Z.to_nat 2) 0 (ack_lc (peer_init 2 200))) ∧
  ack_reset 2 200 1 (ack_lc (peer_init 2 200)) = None ∧
  set_ack 200 1 (ack_lc (peer_init 2 200)) = Some (ack_lc (peer_init 2 200)).
Proof. split_and!; try (vm_compute; reflexivity). vm_compute. eauto. Qed.

(** ** [do_wait] *)

Section wait.
Implicit Types (p seen : Z) (polls : list (list Z)).

Lemma get_release_seen_defined p (rels : list Z) :
  length rels = Z.to_nat MAX_PEERS → ∃ v, get_release_seen p rels = Some v.
Proof.
  intros Hl. unfold get_release_seen.
  destruct (Z.ltb_spec p 0); simpl; [eauto|].
  destruct (Z.geb_spec p MAX_PEERS); simpl; [eauto|].
  destruct (array_read_Some rels p) as (v & -> & _); [unfold MAX_PEERS in *; lia | eauto].
Qed.

Lemma do_wait_loop_spec p seen polls (round : nat) :
  Forall (λ t, length t = Z.to_nat MAX_PEERS) polls →
  match do_wait_loop p seen polls round with
  | Some (Returned k) =>
      ∃ before t after now,
        polls = before ++ t :: after ∧ k = (round + length before)%nat ∧
        get_release_seen p t = Some now ∧ seen < now ∧
        Forall (λ t', ∃ v, get_release_seen p t' = Some v ∧ v ≤ seen) before
  | Some Polling =>
      Forall (λ t', ∃ v, get_release_seen p t' = Some v ∧ v ≤ seen) polls
  | None => False
  end.
Proof.
  intros Hall. revert round.
  induction Hall as [|t polls Ht _ IH]; intros round; simpl; [constructor|].
  destruct (get_release_seen_defined p t Ht) as [now Hnow]. rewrite Hnow. simpl.
  destruct (Z.gtb_spec now seen) as [Hgt|Hle].
  - exists [], t, polls, now. simpl. split_and!; [done | lia | done | lia | constructor].
  - specialize (IH (S round)).
    destruct (do_wait_loop p seen polls (S round)) as [[k|]|]; [| |done].
    + destruct IH as (before & t' & after & now' & -> & -> & ? & ? & ?).
      exists (t :: before), t', after, now'. simpl.
      split_and!; [done | lia | done | done |]. constructor; [eauto | done].
    + constructor; [eauto | done].
Qed.

(** C8.  [do_wait p] reads the release counter of [p] once on entry (the
    baseline) and then once per round.  It leaves the loop in the first
    round whose reading is strictly above the baseline: every earlier
    reading was at most the baseline, and as long as no reading exceeds
    the baseline it keeps polling, whatever the baseline was. *)
Theorem do_wait_strictly_after p (at_entry : list Z) polls :
  Forall (λ t, length t = Z.to_nat MAX_PEERS) (at_entry :: polls) →
  ∃ seen, get_release_seen p at_entry = Some seen ∧
    match do_wait p at_entry polls with
    | Some (Returned k) =>
        ∃ before t after now,
          polls = before ++ t :: after ∧ k = S (length before) ∧
          get_release_seen p t = Some now ∧ seen < now ∧
          Forall (λ t', ∃ v, get_release_seen p t' = Some v ∧ v ≤ seen) before
    | Some Polling =>
        Forall (λ t', ∃ v, get_release_seen p t' = Some v ∧ v ≤ seen) polls
    | None => False
    end.
Proof.
  intros [Hentry Hpolls]%Forall_cons.
  destruct (get_release_seen_defined p at_entry Hentry) as [seen Hseen].
  exists seen. split; [done|]. unfold do_wait. rewrite Hseen. simpl.
  exact (do_wait_loop_spec p seen polls 1 Hpolls).
Qed.
End wait.

(** Peer 0 had released twice before the wait began; two rounds still read
    2, the third reads 3, and that is the round in which the wait ends. *)
Lemma do_wait_strictly_after_witness :
  do_wait 0 (releases_of_peer0 2)
    [releases_of_peer0 2; releases_of_peer0 2; releases_of_peer0 3; releases_of_peer0 4]
  = Some (Returned 3) ∧
  ∃ seen, get_release_seen 0 (releases_of_peer0 2) = Some seen ∧
    match do_wait 0 (releases_of_peer0 2)
            [releases_of_peer0 2; releases_of_peer0 2;
             releases_of_peer0 3; releases_of_peer0 4] with
    | Some (Returned k) =>
        ∃ before t after now,
          [releases_of_peer0 2; releases_of_peer0 2;
           releases_of_peer0 3; releases_of_peer0 4] = before ++ t :: after ∧
          k = S (length before) ∧
          get_release_seen 0 t = Some now ∧ seen < now ∧
          Forall (λ t', ∃ v, get_release_seen 0 t' = Some v ∧ v ≤ seen) before
    | Some Polling =>
        Forall (λ t', ∃ v, get_release_seen 0 t' = Some v ∧ v ≤ seen)
          [releases_of_peer0 2; releases_of_peer0 2;
           releases_of_peer0 3; releases_of_peer0 4]
    | None => False
    end.
Proof.
  split; [reflexivity|].
  apply (do_wait_strictly_after 0). repeat constructor.
Defined.

(** X23.  A wait on an id outside the table reads 0 every time and never
    ends, however many rounds it polls. *)
Lemma do_wait_out_of_range (p : Z) (at_entry : list Z) (polls : list (list Z)) :
  ¬ (0 ≤ p < MAX_PEERS) → do_wait p at_entry polls = Some Polling.
Proof.
  intros Hp. unfold do_wait.
  assert (Hread : ∀ t, get_release_seen p t = Some 0).
  { intros t. unfold get_release_seen.
    destruct (Z.ltb_spec p 0); [done|]. destruct (Z.geb_spec p MAX_PEERS); [done | lia]. }
  rewrite Hread. simpl. generalize 1%nat.
  induction polls as [|t polls IH]; intros round; simpl; [done|].
  rewrite Hread. simpl. apply IH.
Qed.

(** ** Lines written are read back

    What [snprintf] writes with [%d], [sscanf] reads with [%d]: the three
    formats decode to the message they were built from. *)

Section wire.
Implicit Types (s rest t : string) (x : BinNums.N) (z acc : Z) (c : ascii).

Lemma pretty_N_char_digit x :
  (x < 10)%N →
  isdigit (pretty_N_char x) = true ∧ digit_value (pretty_N_char x) = Z.of_N x.
Proof.
  intros Hx. rewrite <- (N2Nat.id x).
  assert (N.to_nat x < 10)%nat as Hn by lia. revert Hn.
  generalize (N.to_nat x) as n. intros n Hn.
  do 10 (destruct n as [|n]; [by vm_compute|]). lia.
Qed.

Lemma isdigit_not_space c : isdigit c = true → isspace c = false.
Proof.
  unfold isdigit, isspace. intros H.
  apply andb_true_iff in H as [H1 H2]. apply Nat.leb_le in H1, H2.
  apply orb_false_iff. split.
  - apply Nat.eqb_neq. lia.
  - apply andb_false_iff. right. apply Nat.leb_gt. lia.
Qed.

Lemma pretty_N_go_app x s rest :
  pretty_N_go x s +:+ rest = pretty_N_go x (s +:+ rest).
Proof.
  revert s. induction (N.lt_wf_0 x) as [x _ IH]; intros s.
  destruct (decide (x = 0)%N) as [->|Hx]; [by rewrite !pretty_N_go_0|].
  rewrite (pretty_N_go_step x s), (pretty_N_go_step x (s +:+ rest)) by lia.
  rewrite IH; [reflexivity|].
  apply N.div_lt; lia.
Qed.

Lemma pretty_N_go_scan x :
  ∃ k : nat, ∀ s acc,
    scan_digits acc (pretty_N_go x s) = scan_digits (acc * 10 ^ Z.of_nat k + Z.of_N x) s.
Proof.
  induction (N.lt_wf_0 x) as [x _ IH].
  destruct (decide (x = 0)%N) as [->|Hx].
  - exists 0%nat. intros s acc. rewrite pretty_N_go_0. f_equal. simpl. lia.
  - destruct (IH (x `div` 10)%N) as [k Hk]; [apply N.div_lt; lia|].
    exists (S k). intros s acc. rewrite pretty_N_go_step by lia. rewrite Hk.
    destruct (pretty_N_char_digit (x `mod` 10)) as [Hd Hv]; [apply N.mod_lt; lia|].
    simpl scan_digits. rewrite Hd, Hv. f_equal.
    rewrite N2Z.inj_div, N2Z.inj_mod. simpl Z.of_N.
    rewrite Nat2Z.inj_succ, Z.pow_succ_r by lia.
    pose proof (Z.div_mod (Z.of_N x) 10 ltac:(lia)). rewrite H at 3. ring.
Qed.

Lemma pretty_N_go_head x s :
  (0 < x)%N → ∃ c t, pretty_N_go x s = String c t ∧ isdigit c = true.
Proof.
  revert s. induction (N.lt_wf_0 x) as [x _ IH]; intros s Hx.
  rewrite pretty_N_go_step by done.
  destruct (decide (x `div` 10 = 0)%N) as [->|Hq].
  - rewrite pretty_N_go_0. eexists _, _. split; [done|].
    apply pretty_N_char_digit, N.mod_lt. lia.
  - apply IH; [apply N.div_lt; lia | by apply N.neq_0_lt_0].
Qed.

Lemma scan_digits_stops acc rest : stops rest → scan_digits acc rest = (acc, rest).
Proof. destruct rest as [|c r]; simpl; [done|]. by intros ->. Qed.

Lemma skip_space_nonspace c t :
  isspace c = false → skip_space (String c t) = String c t.
Proof.
  intros H. change (skip_space (String c t)) with (if isspace c then skip_space t else String c t).
  by rewrite H.
Qed.

Lemma skip_space_space t : skip_space (String " " t) = skip_space t.
Proof. reflexivity. Qed.

Lemma scan_int_space t : scan_int (String " " t) = scan_int t.
Proof. reflexivity. Qed.

Lemma scan_int_digit c t :
  isdigit c = true →
  scan_int (String c t)
  = let '(v, rest) := scan_digits 0 (String c t) in Some (wrap (clamp_long v), rest).
Proof.
  intros Hc. unfold scan_int. rewrite skip_space_nonspace by by apply isdigit_not_space.
  cbv beta iota.
  destruct (Ascii.eqb_spec c "-") as [->|_]; [done|].
  destruct (Ascii.eqb_spec c "+") as [->|_]; [done|].
  by rewrite Hc.
Qed.

Lemma scan_int_minus c t :
  isdigit c = true →
  scan_int (String "-" (String c t))
  = let '(v, rest) := scan_digits 0 (String c t) in Some (wrap (clamp_long (- v)), rest).
Proof.
  intros Hc. unfold scan_int. rewrite skip_space_nonspace by reflexivity.
  cbv beta iota. change (Ascii.eqb "-" "-") with true. cbv beta iota.
  by rewrite Hc.
Qed.

Lemma scan_int_pretty z rest :
  stops rest → scan_int (pretty z +:+ rest) = Some (wrap (clamp_long z), rest).
Proof.
  intros Hrest.
  assert (Hpos : ∀ p rest', stops rest' → ∃ c t,
            pretty (Npos p) +:+ rest' = String c t ∧ isdigit c = true ∧
            scan_digits 0 (String c t) = (Zpos p, rest')).
  { intros p rest' Hrest'. unfold pretty, pretty_N.
    rewrite decide_False by done. rewrite pretty_N_go_app. simpl append.
    destruct (pretty_N_go_head (Npos p) rest') as (c & t & Heq & Hc); [lia|].
    exists c, t. split_and!; [done..|]. rewrite <- Heq.
    destruct (pretty_N_go_scan (Npos p)) as [k Hk]. rewrite Hk.
    rewrite scan_digits_stops by done. f_equal. }
  destruct z as [|p|p].
  - change (pretty 0 +:+ rest) with (String "0" rest).
    rewrite scan_int_digit by reflexivity.
    change (scan_digits 0 (String "0" rest)) with (scan_digits 0 rest).
    by rewrite scan_digits_stops.
  - change (pretty (Z.pos p)) with (pretty (Npos p)).
    destruct (Hpos p rest Hrest) as (c & t & -> & Hc & Hscan).
    by rewrite scan_int_digit, Hscan.
  - change (pretty (Z.neg p) +:+ rest) with (String "-" (pretty (Npos p) +:+ rest)).
    destruct (Hpos p rest Hrest) as (c & t & -> & Hc & Hscan).
    by rewrite scan_int_minus, Hscan.
Qed.
End wire.

Section formats.
Implicit Types (rest : string) (z a b c d : Z) (junk : Junk).

Lemma scan_ints_pretty (n : nat) z rest :
  stops rest →
  scan_ints (S n) (String " " (pretty z +:+ rest))
  = wrap (clamp_long z) :: scan_ints n rest.
Proof.
  intros Hrest. change (scan_ints (S n) ?s) with
    (match scan_int s with Some (v, r) => v :: scan_ints n r | None => [] end).
  by rewrite scan_int_space, scan_int_pretty.
Qed.

Lemma scan_ints_newline (n : nat) : scan_ints n newline = [].
Proof. by destruct n. Qed.

Lemma decode_fmt_req junk a b :
  in_int a → in_int b → decode junk (fmt_req a b) = Req a b.
Proof.
  intros Ha Hb. unfold decode, sscanf_line, fmt_req.
  change ("REQ " +:+ ?x) with (String "R" (String "E" (String "Q" (String " " x)))).
  rewrite skip_space_nonspace by reflexivity.
  change (scan_word 15 (String "R" (String "E" (String "Q" (String " " ?x)))))
    with ("REQ", String " " x).
  cbv beta iota.
  rewrite (scan_ints_pretty 3 a) by reflexivity.
  change (" " +:+ ?x) with (String " " x).
  rewrite (scan_ints_pretty 2 b), scan_ints_newline by reflexivity.
  rewrite !wrap_clamp_in_int by done. reflexivity.
Qed.

Lemma decode_fmt_ack junk a b c d :
  in_int a → in_int b → in_int c → in_int d →
  decode junk (fmt_ack a b c d) = Ack a b c d.
Proof.
  intros Ha Hb Hc Hd. unfold decode, sscanf_line, fmt_ack.
  change ("ACK " +:+ ?x) with (String "A" (String "C" (String "K" (String " " x)))).
  rewrite skip_space_nonspace by reflexivity.
  change (scan_word 15 (String "A" (String "C" (String "K" (String " " ?x)))))
    with ("ACK", String " " x).
  cbv beta iota.
  rewrite (scan_ints_pretty 3 a) by reflexivity.
  change (" " +:+ ?x) with (String " " x).
  rewrite (scan_ints_pretty 2 b) by reflexivity.
  change (" " +:+ ?x) with (String " " x).
  rewrite (scan_ints_pretty 1 c) by reflexivity.
  change (" " +:+ ?x) with (String " " x).
  rewrite (scan_ints_pretty 0 d) by reflexivity.
  rewrite !wrap_clamp_in_int by done. reflexivity.
Qed.

Lemma decode_fmt_rel junk a b c :
  in_int a → in_int b → in_int c →
  decode junk (fmt_rel a b c) = Rel a b c.
Proof.
  intros Ha Hb Hc. unfold decode, sscanf_line, fmt_rel.
  change ("REL " +:+ ?x) with (String "R" (String "E" (String "L" (String " " x)))).
  rewrite skip_space_nonspace by reflexivity.
  change (scan_word 15 (String "R" (String "E" (String "L" (String " " ?x)))))
    with ("REL", String " " x).
  cbv beta iota.
  rewrite (scan_ints_pretty 3 a) by reflexivity.
  change (" " +:+ ?x) with (String " " x).
  rewrite (scan_ints_pretty 2 b) by reflexivity.
  change (" " +:+ ?x) with (String " " x).
  rewrite (scan_ints_pretty 1 c), scan_ints_newline by reflexivity.
  rewrite !wrap_clamp_in_int by done. reflexivity.
Qed.
End formats.

(** ** Inbound lines *)

Lemma process_line_ignored (junk : Junk) (line : string) (s : Peer) :
  decode junk line ∈ [Dropped; Hello; Other] →
  process_line junk line s = Some (s, []).
Proof.
  unfold process_line. intros Hd.
  repeat (apply elem_of_cons in Hd as [->|Hd]; [done|]).
  by apply elem_of_nil in Hd.
Qed.

Lemma sscanf_line_blank (junk : Junk) (line : string) :
  skip_space line = EmptyString → decode junk line = Dropped.
Proof. intros H. unfold decode, sscanf_line. by rewrite H. Qed.

(** C2, on the code.  A line that names a message type is handled by that
    type's branch however few numbers follow: the guard only rejects a line
    on which [sscanf] converted nothing.  On [REQ 5] the branch runs with
    [b] uninitialised: the clock goes from 0 to 7 and the queue receives the
    entry [(5, b)].  On [ACK 9 1] the clock goes from 0 to 10. *)
Theorem short_line_changes_state (junk : Junk) :
  (∃ s' out,
     process_line junk "REQ 5" (peer_init 2 0) = Some (s', out) ∧
     lc s' = 7 ∧ lc s' ≠ lc (peer_init 2 0) ∧
     queue_head s' = [mkReq 5 (junk_b junk)] ∧
     queue_head s' ≠ queue_head (peer_init 2 0)) ∧
  (∃ s' out,
     process_line junk "ACK 9 1" (peer_init 2 0) = Some (s', out) ∧
     lc s' = 10 ∧ lc s' ≠ lc (peer_init 2 0)).
Proof.
  split.
  - assert (decode junk "REQ 5" = Req 5 (junk_b junk)) as Hd by reflexivity.
    unfold process_line. rewrite Hd. simpl. eexists _, _. split; [reflexivity|].
    simpl. split_and!; done.
  - assert (decode junk "ACK 9 1" = Ack 9 1 (junk_c junk) (junk_d junk)) as Hd
      by reflexivity.
    unfold process_line. rewrite Hd. simpl.
    destruct (junk_d junk =? 0); simpl; eexists _, _; (split; [reflexivity|]); simpl; done.
Qed.

(** ** The acknowledgement of a request *)

Lemma handle_req_clock (s : Peer) (ts pid : Z) :
  in_int (lc s) → in_int ts → lc s < INT_MAX → ts < INT_MAX - 1 →
  ∃ t, ts < t ∧ in_int t ∧
    handle (Req ts pid) s =
      Some (with_queue (queue_insert ts pid (queue_head s)) (with_lc t s),
            send_short pid (fmt_ack t (my_pid s) ts pid)
              (with_queue (queue_insert ts pid (queue_head s)) (with_lc t s))).
Proof.
  intros Hc Hts Hcmax Htsmax. unfold handle.
  destruct (Z.le_gt_cases (lc s) ts) as [Hle|Hgt].
  - rewrite (update_lc_on_receive_ahead ts (lc s)) by int_range.
    rewrite (inc_lc_no_overflow (ts + 1)) by int_range.
    exists (ts + 1 + 1). split_and!; [lia | int_range | reflexivity].
  - rewrite (update_lc_on_receive_behind ts (lc s)) by lia.
    rewrite (inc_lc_no_overflow (lc s)) by int_range.
    exists (lc s + 1). split_and!; [lia | int_range | reflexivity].
Qed.

Lemma handle_ack_records (r : Peer) (t from ts : Z) :
  length (ack_lc r) = Z.to_nat MAX_PEERS → 0 ≤ from < MAX_PEERS →
  ∃ r', handle (Ack t from ts (my_pid r)) r = Some (r', []) ∧
        array_read (ack_lc r') from = Some t.
Proof.
  intros Hlen Hfrom. unfold handle.
  destruct (update_lc_on_receive t (lc r)) as [? lc1].
  rewrite Z.eqb_refl. unfold set_ack.
  destruct (Z.ltb_spec from 0); [lia|]. destruct (Z.geb_spec from MAX_PEERS); [lia|]. simpl.
  rewrite array_write_Some by (unfold MAX_PEERS in *; lia). simpl.
  eexists. split; [done|]. simpl.
  destruct (array_read_Some (<[Z.to_nat from := t]> (ack_lc r)) from) as (v & -> & Hv).
  { rewrite length_insert. unfold MAX_PEERS in *. lia. }
  rewrite list_lookup_insert_eq in Hv by (unfold MAX_PEERS in *; lia). done.
Qed.

(** C9, as the code has it.  When the clock is below [INT_MAX] and the
    request timestamp [ts] below [INT_MAX - 1], handling a line that reads
    as [REQ ts pid] leaves the clock at some [t > ts] and addresses to
    [pid] the line [ACK t my_pid ts pid]; and when the requester [pid]
    handles that line, it stores [t], which is at least [ts], in the ack
    slot of the acknowledging peer. *)
Theorem ack_timestamp_exceeds_request
    (junk : Junk) (line : string) (s : Peer) (ts pid : Z) :
  decode junk line = Req ts pid →
  in_int (lc s) → in_int ts → lc s < INT_MAX → ts < INT_MAX - 1 →
  ∃ t s',
    process_line junk line s
      = Some (s', send_short pid (fmt_ack t (my_pid s) ts pid) s') ∧
    lc s' = t ∧ ts < t ∧
    ∀ (r : Peer) (junk' : Junk),
      my_pid r = pid → in_int pid →
      length (ack_lc r) = Z.to_nat MAX_PEERS →
      0 ≤ my_pid s < MAX_PEERS →
      ∃ r' v,
        process_line junk' (fmt_ack t (my_pid s) ts pid) r = Some (r', []) ∧
        array_read (ack_lc r') (my_pid s) = Some v ∧ ts ≤ v.
Proof.
  intros Hd Hc Hts Hcmax Htsmax.
  destruct (handle_req_clock s ts pid Hc Hts Hcmax Htsmax) as (t & Hlt & Ht & Hh).
  unfold process_line at 1. rewrite Hd, Hh.
  eexists t, _. split_and!; [done | done | done |].
  intros r junk' Hme Hpid Hlen Hfrom. unfold process_line.
  rewrite decode_fmt_ack by first [assumption | int_range]. rewrite <- Hme.
  destruct (handle_ack_records r t (my_pid s) ts Hlen Hfrom) as (r' & Hr & Hslot).
  exists r', t. split_and!; [done | done | lia].
Qed.

(** The request of peer 1 with timestamp 3 reaches peer 0, whose clock is 0:
    the ACK carries 5. *)
Lemma ack_timestamp_exceeds_request_witness :
  ∃ t s',
    process_line no_junk "REQ 3 1" (peer_init 2 0)
      = Some (s', send_short 1 (fmt_ack t 0 3 1) s') ∧
    lc s' = t ∧ 3 < t ∧
    ∀ (r : Peer) (junk' : Junk),
      my_pid r = 1 → in_int 1 →
      length (ack_lc r) = Z.to_nat MAX_PEERS →
      0 ≤ 0 < MAX_PEERS →
      ∃ r' v,
        process_line junk' (fmt_ack t 0 3 1) r = Some (r', []) ∧
        array_read (ack_lc r') 0 = Some v ∧ 3 ≤ v.
Proof.
  apply (ack_timestamp_exceeds_request no_junk "REQ 3 1" (peer_init 2 0) 3 1);
    [reflexivity | simpl; int_range | int_range | simpl; int_range | int_range].
Defined.

(** With the request timestamp [INT_MAX] the two additions wrap, and the ACK
    carries [INT_MIN + 1]; recorded by the requester it is below the
    request's timestamp, so the requester's [all_acks_ge] stays false. *)
Lemma ack_timestamp_wraps :
  snd <$> process_line no_junk "REQ 2147483647 1" (peer_init 2 0)
    = Some [mkPacket 1 (fmt_ack (-2147483647) 0 2147483647 1)] ∧
  ¬ (2147483647 < -2147483647) ∧
  decode no_junk (fmt_ack (-2147483647) 0 2147483647 1)
    = Ack (-2147483647) 0 2147483647 1 ∧
  ('(s, _) ← process_line no_junk (fmt_ack (-2147483647) 0 2147483647 1) (peer_init 2 1);
   array_read (ack_lc s) 0) = Some (-2147483647) ∧
  ¬ (2147483647 ≤ -2147483647).
Proof. split_and!; [vm_compute; reflexivity | lia | vm_compute; reflexivity | vm_compute; reflexivity | lia]. Qed.

(** ** The handlers stay inside the arrays *)

Section defined.
Implicit Types (s : Peer) (acks rels : list Z).

Lemma set_ack_defined (from v : Z) acks :
  length acks = Z.to_nat MAX_PEERS →
  ∃ acks', set_ack from v acks = Some acks' ∧ length acks' = length acks.
Proof.
  intros Hl. unfold set_ack.
  destruct (Z.ltb_spec from 0); simpl; [eauto|].
  destruct (Z.geb_spec from MAX_PEERS); simpl; [eauto|].
  rewrite array_write_Some by (unfold MAX_PEERS in *; lia).
  eexists. split; [done|]. apply length_insert.
Qed.

Lemma inc_release_seen_defined (pid : Z) rels :
  length rels = Z.to_nat MAX_PEERS →
  ∃ rels', inc_release_seen pid rels = Some rels' ∧ length rels' = length rels.
Proof.
  intros Hl. unfold inc_release_seen.
  destruct (Z.ltb_spec pid 0); simpl; [eauto|].
  destruct (Z.geb_spec pid MAX_PEERS); simpl; [eauto|].
  destruct (array_read_Some rels pid) as (v & -> & _); [unfold MAX_PEERS in *; lia|].
  simpl. rewrite array_write_Some by (unfold MAX_PEERS in *; lia).
  eexists. split; [done|]. apply length_insert.
Qed.

Lemma ack_reset_defined (n me T : Z) acks :
  length acks = Z.to_nat MAX_PEERS → n ≤ MAX_PEERS → 0 ≤ me < MAX_PEERS →
  ∃ acks', ack_reset n me T acks = Some acks' ∧ length acks' = length acks.
Proof.
  intros Hl Hn Hme. unfold ack_reset.
  destruct (ack_clear_from_spec (Z.to_nat n) 0 acks) as (cleared & -> & Hlc & _);
    [lia | unfold MAX_PEERS in *; lia |]. simpl.
  rewrite array_write_Some by (unfold MAX_PEERS in *; lia).
  eexists. split; [done|]. by rewrite length_insert.
Qed.

(** On a well-formed peer every branch of [process_line] runs to its end,
    and leaves a well-formed peer. *)
Lemma handle_defined (m : Msg) s :
  peer_ok s → ∃ s' out, handle m s = Some (s', out) ∧ peer_ok s'.
Proof.
  intros (Ha & Hr & HN & Hme). unfold handle.
  destruct m as [| |rlc rpid|al from flc fpid|rel rlc rpid|].
  - by eexists _, _.
  - by eexists _, _.
  - destruct (update_lc_on_receive rlc (lc s)) as [? lc1].
    destruct (inc_lc lc1) as [mylc lc2]. by eexists _, _.
  - destruct (update_lc_on_receive al (lc s)) as [? lc1].
    destruct (fpid =? my_pid s); [|by eexists _, _].
    destruct (set_ack_defined from al (ack_lc s) Ha) as (acks' & -> & Hl).
    simpl. eexists _, _. split; [done|]. unfold peer_ok; simpl; split_and!; first [congruence | lia].
  - destruct (update_lc_on_receive rel (lc s)) as [? lc1].
    destruct (inc_release_seen_defined rpid (releases_seen s) Hr) as (rels' & -> & Hl).
    simpl. eexists _, _. split; [done|]. unfold peer_ok; simpl; split_and!; first [congruence | lia].
  - by eexists _, _.
Qed.

Lemma process_line_defined (junk : Junk) (line : string) s :
  peer_ok s → ∃ s' out, process_line junk line s = Some (s', out) ∧ peer_ok s'.
Proof. apply handle_defined. Qed.

Lemma do_request_post_defined (my_req_lc : Z) s :
  peer_ok s → ∃ s' out, do_request_post my_req_lc s = Some (s', out) ∧ peer_ok s'.
Proof.
  intros (Ha & Hr & HN & Hme). unfold do_request_post.
  destruct (ack_reset_defined (N s) (my_pid s) my_req_lc (ack_lc s)) as (acks' & -> & Hl);
    [done | lia | lia |].
  simpl. eexists _, _. split; [done|]. unfold peer_ok; simpl; split_and!; first [congruence | lia].
Qed.

Lemma do_request_release_defined (my_req_lc : Z) s :
  peer_ok s → ∃ s' out, do_request_release my_req_lc s = Some (s', out) ∧ peer_ok s'.
Proof.
  intros (Ha & Hr & HN & Hme). unfold do_request_release.
  destruct (inc_lc (lc s)) as [rel_l lc1].
  destruct (inc_release_seen_defined (my_pid s) (releases_seen s) Hr) as (rels' & -> & Hl).
  simpl. eexists _, _. split; [done|]. unfold peer_ok; simpl; split_and!; first [congruence | lia].
Qed.

Lemma grant_test_defined (my_req_lc : Z) s :
  peer_ok s → is_Some (grant_test my_req_lc s).
Proof.
  intros (Ha & Hr & HN & Hme). unfold grant_test, polling_round.
  destruct (negb _); [done|]. apply all_acks_ge_defined. unfold MAX_PEERS in *. lia.
Qed.

Lemma peer_init_ok (n pid : Z) :
  0 < n ≤ MAX_PEERS → 0 ≤ pid < n → peer_ok (peer_init n pid).
Proof.
  intros Hn Hpid. unfold peer_ok, peer_init.
  cbn [ack_lc releases_seen N my_pid]. by rewrite !length_replicate.
Qed.
End defined.

(** ** One entry per peer in the queue *)

Section ledger.
Implicit Types (q : list ReqEntry) (led : gmap Z Z) (ts pid : Z).







End ledger.



(** The discipline is needed: [queue_insert] never looks for an entry of the
    same peer, so two requests of peer 1 handled in a row are both queued. *)
Example queue_two_entries_without_discipline :
  ('(nd, _) ← peer_step (Recv no_junk "REQ 3 1") (mkNode (peer_init 2 0) Idle);
   '(nd', _) ← peer_step (Recv no_junk "REQ 12 1") nd;
   Some (queue_head (peer nd'))) = Some [mkReq 3 1; mkReq 12 1] ∧
  replay [Recv no_junk "REQ 3 1"; Recv no_junk "REQ 12 1"]
    (mkNode (peer_init 2 0) Idle) ∅ = None.
Proof. split; vm_compute; reflexivity. Qed.

(** ** Mutual exclusion *)

(** C1, on the code.  Two peers that both run [do_request] can be inside
    [./critical] at the same time.  In the first schedule every line is
    handled in the order it was sent; peer 0 is overtaken between taking its
    timestamp and queueing its request.  Each peer passes the grant test
    (own request at the head of its queue, every ack at least its
    timestamp) and neither has released. *)
Theorem two_peers_in_critical :
  ∃ sys,
    run late_queueing (system_init 2) = Some sys ∧
    phase <$> nodes sys = [Critical 1; Critical 1] ∧
    critical_count sys = 2%nat.
Proof. eexists. split; [vm_compute; reflexivity|]. split; reflexivity. Qed.

(** The same outcome when both requests are queued and announced at once
    and a later line of a peer is handled before an earlier one. *)
Lemma two_peers_in_critical_overtaking :
  ∃ sys,
    run overtaking (system_init 2) = Some sys ∧
    phase <$> nodes sys = [Critical 1; Critical 1] ∧
    critical_count sys = 2%nat.
Proof. eexists. split; [vm_compute; reflexivity|]. split; reflexivity. Qed.

Lemma mutual_exclusion_fails : ¬ mutual_exclusion.
Proof.
  intros Hmx.
  assert (run late_queueing (system_init 2)
          = Some (default (system_init 2) (run late_queueing (system_init 2)))) as Hrun
    by (vm_compute; reflexivity).
  apply Hmx in Hrun. vm_compute in Hrun. lia.
Qed.

(** The grant test does hold a peer back: alone with an unanswered request,
    peer 0 of two cannot leave the polling loop. *)
Example grant_needs_all_acks :
  run [Main 0 DoTick; Main 0 DoPost; Main 0 DoGrant] (system_init 2) = None ∧
  (sys ← run [Main 0 DoTick; Main 0 DoPost] (system_init 2);
   nd ← nodes sys !! 0%nat;
   grant_test 1 (peer nd)) = Some false.
Proof. split; vm_compute; reflexivity. Qed.

(** * Further properties of the code *)

(** ** Request queue: removal, and the order of arrivals *)

Section queue_more.
Implicit Types (q : list ReqEntry) (e x y : ReqEntry) (ts pid : Z).

#[local] Instance key_le_transitive : Transitive key_le.
Proof. intros x y z. apply key_le_trans. Qed.

#[local] Instance key_le_antisymm : AntiSymm (=) key_le.
Proof. intros x y. apply key_le_antisym. Qed.

Lemma queue_remove_subseteq ts pid q x : x ∈ queue_remove ts pid q → x ∈ q.
Proof.
  induction q as [|e q IH]; simpl; [done|].
  destruct (same_key e ts pid).
  - by right.
  - intros [->|Hx]%elem_of_cons; [by left | right; auto].
Qed.

Lemma queue_remove_Sorted ts pid q :
  Sorted key_le q → Sorted key_le (queue_remove ts pid q).
Proof.
  intros Hs. apply Sorted_StronglySorted in Hs; [|apply _].
  apply StronglySorted_Sorted.
  induction Hs as [|e q Hs IH Hall]; simpl; [constructor|].
  destruct (same_key e ts pid); [done|].
  constructor; [done|]. rewrite Forall_forall in *.
  intros x Hx. by apply Hall, (queue_remove_subseteq ts pid).
Qed.

(** X1.  [queue_remove] unlinks exactly one entry with the given key when
    the queue holds one, and leaves the queue as it is otherwise. *)
Theorem queue_remove_one_occurrence ts pid q :
  if decide (mkReq ts pid ∈ q)
  then q ≡ₚ mkReq ts pid :: queue_remove ts pid q
  else queue_remove ts pid q = q.
Proof.
  case_decide.
  - by apply queue_remove_present.
  - by apply queue_remove_absent.
Qed.

(** X2.  Removing from a queue sorted by (timestamp, peer id) leaves it
    sorted. *)
Theorem queue_remove_keeps_order ts pid q :
  Sorted key_le q → Sorted key_le (queue_remove ts pid q).
Proof. apply queue_remove_Sorted. Qed.

(** X3.  After a request is inserted into a sorted queue it is at the head
    exactly when no queued request orders strictly before it: an equal or
    larger key never keeps it from the head, a smaller one always does. *)
Theorem queue_insert_head ts pid q :
  Sorted key_le q →
  queue_head_is ts pid (queue_insert ts pid q) = true ↔
  Forall (key_le (mkReq ts pid)) q.
Proof.
  intros Hs. destruct q as [|e q]; simpl.
  - unfold same_key. simpl. rewrite !Z.eqb_refl. done.
  - destruct (walks_past e ts pid) eqn:Hw; simpl.
    + rewrite walks_past_not_same by done. split; [done|].
      intros [Hle _]%Forall_cons. by apply walks_past_lt in Hw.
    + unfold same_key. simpl. rewrite !Z.eqb_refl. simpl. split; [|done]. intros _.
      apply not_true_iff_false in Hw. rewrite walks_past_lt in Hw.
      assert (key_le (mkReq ts pid) e) as Hle.
      { destruct (key_le_total (mkReq ts pid) e) as [|Hge]; [done|].
        unfold key_le in *. simpl in *. lia. }
      apply Sorted_StronglySorted in Hs; [|apply _].
      apply StronglySorted_inv in Hs as [_ Hall].
      constructor; [done|]. eapply Forall_impl; [done|].
      intros x Hx. by eapply key_le_trans.
Qed.

(** X4.  On a sorted queue the order in which two requests are inserted
    does not matter: the queue is the same list either way. *)
Theorem queue_insert_commute ts1 pid1 ts2 pid2 q :
  Sorted key_le q →
  queue_insert ts1 pid1 (queue_insert ts2 pid2 q)
  = queue_insert ts2 pid2 (queue_insert ts1 pid1 q).
Proof.
  intros Hs. apply (Sorted_unique key_le).
  - by do 2 apply queue_insert_Sorted.
  - by do 2 apply queue_insert_Sorted.
  - rewrite !queue_insert_perm. apply Permutation_swap.
Qed.

(** X5.  On a sorted queue, inserting one request and removing a different
    one can be done in either order. *)
Theorem queue_insert_remove_commute ts1 pid1 ts2 pid2 q :
  Sorted key_le q → mkReq ts1 pid1 ≠ mkReq ts2 pid2 →
  queue_remove ts2 pid2 (queue_insert ts1 pid1 q)
  = queue_insert ts1 pid1 (queue_remove ts2 pid2 q).
Proof.
  intros Hs Hne. apply (Sorted_unique key_le).
  - by apply queue_remove_Sorted, queue_insert_Sorted.
  - by apply queue_insert_Sorted, queue_remove_Sorted.
  - etrans; [|symmetry; apply queue_insert_perm].
    destruct (decide (mkReq ts2 pid2 ∈ q)) as [Hin|Hnin].
    + assert (mkReq ts2 pid2 ∈ queue_insert ts1 pid1 q) as Hin'.
      { rewrite queue_insert_perm. by right. }
      pose proof (queue_remove_present _ _ _ Hin') as P1.
      pose proof (queue_insert_perm ts1 pid1 q) as P2.
      pose proof (queue_remove_present _ _ _ Hin) as P3.
      apply (Permutation_cons_inv (a := mkReq ts2 pid2)).
      rewrite <- P1, P2.
      etrans; [apply Permutation_skip, P3 | apply Permutation_swap].
    + rewrite (queue_remove_absent ts2 pid2 q) by done.
      rewrite queue_remove_absent; [apply queue_insert_perm|].
      rewrite queue_insert_perm. intros [?|?]%elem_of_cons; congruence.
Qed.
End queue_more.

Lemma queue_remove_keeps_order_witness :
  Sorted key_le [mkReq 1 0; mkReq 1 2; mkReq 4 1] ∧
  queue_remove 1 2 [mkReq 1 0; mkReq 1 2; mkReq 4 1] = [mkReq 1 0; mkReq 4 1] ∧
  Sorted key_le (queue_remove 1 2 [mkReq 1 0; mkReq 1 2; mkReq 4 1]).
Proof.
  assert (Hs : Sorted key_le [mkReq 1 0; mkReq 1 2; mkReq 4 1]).
  { repeat constructor; unfold key_le; simpl; lia. }
  split; [exact Hs | split; [reflexivity |]].
  exact (queue_remove_keeps_order 1 2 _ Hs).
Defined.

Lemma queue_insert_head_witness :
  Sorted key_le [mkReq 3 1; mkReq 5 0] ∧
  (queue_head_is 3 0 (queue_insert 3 0 [mkReq 3 1; mkReq 5 0]) = true ↔
   Forall (key_le (mkReq 3 0)) [mkReq 3 1; mkReq 5 0]) ∧
  queue_head_is 3 0 (queue_insert 3 0 [mkReq 3 1; mkReq 5 0]) = true ∧
  queue_head_is 4 0 (queue_insert 4 0 [mkReq 3 1; mkReq 5 0]) = false.
Proof.
  assert (Hs : Sorted key_le [mkReq 3 1; mkReq 5 0]).
  { repeat constructor; unfold key_le; simpl; lia. }
  split; [exact Hs | split; [| split; reflexivity]].
  exact (queue_insert_head 3 0 _ Hs).
Defined.

Lemma queue_insert_commute_witness :
  Sorted key_le [mkReq 3 1] ∧
  queue_insert 1 0 (queue_insert 5 2 [mkReq 3 1])
  = queue_insert 5 2 (queue_insert 1 0 [mkReq 3 1]).
Proof.
  assert (Hs : Sorted key_le [mkReq 3 1]) by repeat constructor.
  split; [exact Hs |]. exact (queue_insert_commute 1 0 5 2 _ Hs).
Defined.

Lemma queue_insert_remove_commute_witness :
  Sorted key_le [mkReq 3 1; mkReq 5 2] ∧
  queue_remove 5 2 (queue_insert 1 0 [mkReq 3 1; mkReq 5 2])
  = queue_insert 1 0 (queue_remove 5 2 [mkReq 3 1; mkReq 5 2]).
Proof.
  assert (Hs : Sorted key_le [mkReq 3 1; mkReq 5 2]).
  { repeat constructor; unfold key_le; simpl; lia. }
  split; [exact Hs |].
  apply (queue_insert_remove_commute 1 0 5 2 _ Hs). congruence.
Defined.

(** ** Ack table and release table *)

Section tables_more.
Implicit Types (acks rels : list Z) (n : nat) (i T : Z).

Lemma array_read_write_eq (a : list Z) i v :
  0 ≤ i < Z.of_nat (length a) →
  array_read (<[Z.to_nat i := v]> a) i = Some v.
Proof.
  intros Hi. destruct (array_read_Some (<[Z.to_nat i := v]> a) i) as (w & -> & Hw).
  { by rewrite length_insert. }
  rewrite list_lookup_insert_eq in Hw by lia. done.
Qed.

Lemma array_read_write_ne (a : list Z) i j v :
  0 ≤ i → i ≠ j → array_read (<[Z.to_nat i := v]> a) j = array_read a j.
Proof.
  intros Hi Hne. unfold array_read. rewrite length_insert.
  destruct ((0 <=? j) && (j <? Z.of_nat (length a))) eqn:Hj; [|done].
  apply andb_true_iff in Hj as [Hj _]. apply Z.leb_le in Hj.
  apply list_lookup_insert_ne. lia.
Qed.

(** X6.  [set_ack] with an id inside the table stores the value in the
    slot of that id and leaves every other slot as it was. *)
Theorem set_ack_records (from value : Z) acks :
  length acks = Z.to_nat MAX_PEERS → 0 ≤ from < MAX_PEERS →
  ∃ acks', set_ack from value acks = Some acks' ∧
    array_read acks' from = Some value ∧
    ∀ j, j ≠ from → array_read acks' j = array_read acks j.
Proof.
  intros Hl Hfrom. unfold set_ack.
  destruct (Z.ltb_spec from 0); [lia|]. destruct (Z.geb_spec from MAX_PEERS); [lia|].
  simpl. rewrite array_write_Some by (unfold MAX_PEERS in *; lia).
  eexists. split; [done|]. split.
  - apply array_read_write_eq. unfold MAX_PEERS in *. lia.
  - intros j Hj. apply array_read_write_ne; [lia | done].
Qed.

Lemma all_acks_ge_from_iff n i T acks :
  0 ≤ i → i + Z.of_nat n ≤ Z.of_nat (length acks) →
  ∃ b, all_acks_ge_from n i T acks = Some b ∧
    (b = true ↔
     ∀ (j : nat) v, i ≤ Z.of_nat j < i + Z.of_nat n → acks !! j = Some v → T ≤ v).
Proof.
  revert i. induction n as [|n IH]; intros i Hi Hlen; simpl.
  - exists true. split; [done|]. split; [|done]. intros _ j v Hj. lia.
  - destruct (array_read_Some acks i) as (w & -> & Hw); [lia|]. simpl.
    destruct (Z.ltb_spec w T) as [Hlt|Hge].
    + exists false. split; [done|]. split; [done|]. intros Hall.
      specialize (Hall (Z.to_nat i) w). rewrite Z2Nat.id in Hall by lia.
      specialize (Hall ltac:(lia) Hw). lia.
    + destruct (IH (i + 1)) as (b & -> & Hb); [lia..|].
      exists b. split; [done|]. rewrite Hb. split.
      * intros Hall j v Hj Hv. destruct (decide (Z.of_nat j = i)) as [<-|Hne].
        -- rewrite Nat2Z.id in Hw. simplify_eq. done.
        -- apply (Hall j); [lia | done].
      * intros Hall j v Hj. apply Hall. lia.
Qed.

Lemma all_acks_ge_slots (n T : Z) acks :
  length acks = Z.to_nat MAX_PEERS → n ≤ MAX_PEERS →
  ∃ b, all_acks_ge n T acks = Some b ∧
    (b = true ↔ ∀ j v, 0 ≤ j < n → array_read acks j = Some v → T ≤ v).
Proof.
  intros Hl Hn. unfold all_acks_ge.
  destruct (all_acks_ge_from_iff (Z.to_nat n) 0 T acks) as (b & -> & Hb);
    [lia | unfold MAX_PEERS in *; lia |].
  exists b. split; [done|]. rewrite Hb. split.
  - intros Hall j v Hj Hv. apply array_read_lookup in Hv as [_ Hv].
    apply (Hall (Z.to_nat j)); [lia | done].
  - intros Hall j v Hj Hv. apply (Hall (Z.of_nat j)); [lia|].
    unfold array_read. rewrite Nat2Z.id.
    apply lookup_lt_Some in Hv as Hlt.
    destruct (Z.leb_spec 0 (Z.of_nat j)); [|lia].
    destruct (Z.ltb_spec (Z.of_nat j) (Z.of_nat (length acks))); [done | lia].
Qed.

(** X7.  [all_acks_ge] returns 1 exactly when every slot [0 .. N-1] of the
    ack table holds at least the target; slots from [N] on are not looked
    at. *)
Theorem all_acks_ge_iff (n T : Z) acks :
  length acks = Z.to_nat MAX_PEERS → n ≤ MAX_PEERS →
  ∃ b, all_acks_ge n T acks = Some b ∧
    (b = true ↔ ∀ j v, 0 ≤ j < n → array_read acks j = Some v → T ≤ v).
Proof. apply all_acks_ge_slots. Qed.

Lemma record_acks_ge (l : list (Z * Z)) (T : Z) acks :
  length acks = Z.to_nat MAX_PEERS →
  Forall (λ p, T ≤ p.2) l →
  ∃ acks', record_acks l acks = Some acks' ∧
    length acks' = length acks ∧
    ∀ j : nat,
      (Z.of_nat j ∈ l.*1 ∨ ∃ v0, acks !! j = Some v0 ∧ T ≤ v0) →
      (j < length acks)%nat →
      ∃ v, acks' !! j = Some v ∧ T ≤ v.
Proof.
  intros Hl Hall. revert acks Hl.
  induction Hall as [|[from value] l Hv _ IH]; intros acks Hl; simpl.
  - exists acks. split_and!; [done..|].
    intros j [Hin|Hold] Hj; [by apply elem_of_nil in Hin | done].
  - destruct (set_ack_defined from value acks Hl) as (acks1 & Hset & Hl1).
    rewrite Hset. simpl.
    destruct (IH acks1) as (acks' & -> & Hl' & Hslots); [congruence|].
    exists acks'. split_and!; [done | congruence |].
    intros j Hj Hlt. apply Hslots; [|congruence].
    destruct (decide (Z.of_nat j = from)) as [Heq|Hne].
    + right. exists value. split; [|done]. subst from.
      unfold set_ack in Hset.
      destruct (Z.ltb_spec (Z.of_nat j) 0); [lia|].
      destruct (Z.geb_spec (Z.of_nat j) MAX_PEERS); [unfold MAX_PEERS in *; lia|].
      simpl in Hset. rewrite array_write_Some in Hset by lia. simplify_eq.
      rewrite Nat2Z.id. by apply list_lookup_insert_eq.
    + destruct Hj as [[Heq|Hin]%elem_of_cons|(v0 & Hv0 & Hge)]; [done | by left |].
      right. exists v0. split; [|done].
      unfold set_ack in Hset.
      destruct ((from <? 0) || (from >=? MAX_PEERS)); [by simplify_eq|].
      unfold array_write in Hset.
      destruct ((0 <=? from) && (from <? Z.of_nat (length acks))) eqn:Hr; [|done].
      simplify_eq. rewrite list_lookup_insert_ne; [done|].
      apply andb_true_iff in Hr as [Hr _]. apply Z.leb_le in Hr. lia.
Qed.

(** X8.  Once, after the reset of [do_request], an acknowledgement with a
    value of at least the request's timestamp has been recorded from every
    other peer (in any order, repeated or not), [all_acks_ge] holds for that
    timestamp. *)
Theorem acks_from_all_peers_grant (n me T : Z) (l : list (Z * Z)) acks :
  length acks = Z.to_nat MAX_PEERS →
  1 ≤ n ≤ MAX_PEERS → 0 ≤ me < n →
  Forall (λ p, T ≤ p.2) l →
  (∀ i, 0 ≤ i < n → i ≠ me → i ∈ l.*1) →
  ∃ acks0 acks',
    ack_reset n me T acks = Some acks0 ∧
    record_acks l acks0 = Some acks' ∧
    all_acks_ge n T acks' = Some true.
Proof.
  intros Hl Hn Hme Hvals Hfroms. unfold ack_reset.
  destruct (ack_clear_from_spec (Z.to_nat n) 0 acks) as (cleared & -> & Hlc & _);
    [lia | unfold MAX_PEERS in *; lia |]. simpl.
  rewrite array_write_Some by (unfold MAX_PEERS in *; lia).
  set (acks0 := <[Z.to_nat me := T]> cleared).
  assert (Hl0 : length acks0 = Z.to_nat MAX_PEERS)
    by (unfold acks0; rewrite length_insert; congruence).
  destruct (record_acks_ge l T acks0 Hl0 Hvals) as (acks' & Hrec & Hl' & Hslots).
  exists acks0, acks'. split_and!; [done..|].
  unfold all_acks_ge. apply all_acks_ge_from_true; [lia | unfold MAX_PEERS in *; lia |].
  intros j v Hj Hv.
  destruct (Hslots j) as (w & Hw & Hge); [| unfold MAX_PEERS in *; lia | congruence].
  destruct (decide (Z.of_nat j = me)) as [Heq|Hne].
  - right. exists T. split; [|lia]. unfold acks0. subst me. rewrite Nat2Z.id.
    apply list_lookup_insert_eq. unfold MAX_PEERS in *. lia.
  - left. apply Hfroms; lia.
Qed.

(** X9.  [inc_release_seen] with an id inside the table adds one to the
    counter of that id (below [INT_MAX]) and leaves the counters of all
    other ids as they were. *)
Theorem inc_release_seen_counts (pid v : Z) rels :
  length rels = Z.to_nat MAX_PEERS → 0 ≤ pid < MAX_PEERS →
  get_release_seen pid rels = Some v → in_int v → v < INT_MAX →
  ∃ rels', inc_release_seen pid rels = Some rels' ∧
    get_release_seen pid rels' = Some (v + 1) ∧
    ∀ q, q ≠ pid → get_release_seen q rels' = get_release_seen q rels.
Proof.
  intros Hl Hpid Hget Hv Hmax. unfold inc_release_seen, get_release_seen in *.
  destruct (Z.ltb_spec pid 0); [lia|]. destruct (Z.geb_spec pid MAX_PEERS); [lia|].
  simpl in *. rewrite Hget. simpl.
  rewrite array_write_Some by (unfold MAX_PEERS in *; lia).
  rewrite wrap_in_int by int_range.
  eexists. split; [done|]. split.
  - apply array_read_write_eq. unfold MAX_PEERS in *. lia.
  - intros q Hq. destruct ((q <? 0) || (q >=? MAX_PEERS)); [done|].
    apply array_read_write_ne; [lia | done].
Qed.
End tables_more.

Lemma set_ack_records_witness :
  ∃ acks', set_ack 1 9 (replicate 128 0) = Some acks' ∧
    array_read acks' 1 = Some 9 ∧
    ∀ j, j ≠ 1 → array_read acks' j = array_read (replicate 128 0) j.
Proof.
  apply (set_ack_records 1 9 (replicate 128 0)); [reflexivity | unfold MAX_PEERS; lia].
Defined.

Lemma all_acks_ge_iff_witness :
  ∃ b, all_acks_ge 2 0 (replicate 128 0) = Some b ∧
    (b = true ↔
     ∀ j v, 0 ≤ j < 2 → array_read (replicate 128 0) j = Some v → 0 ≤ v).
Proof.
  apply (all_acks_ge_iff 2 0 (replicate 128 0)); [reflexivity | unfold MAX_PEERS; lia].
Defined.

(** Three peers; peer 1 asks with timestamp 4 and hears from 2 and 0. *)
Lemma acks_from_all_peers_grant_witness :
  ∃ acks0 acks',
    ack_reset 3 1 4 (replicate 128 0) = Some acks0 ∧
    record_acks [(2, 6); (0, 9)] acks0 = Some acks' ∧
    all_acks_ge 3 4 acks' = Some true.
Proof.
  apply (acks_from_all_peers_grant 3 1 4 [(2, 6); (0, 9)] (replicate 128 0)).
  - reflexivity.
  - unfold MAX_PEERS. lia.
  - lia.
  - repeat constructor; simpl; lia.
  - intros i Hi Hne. assert (i = 0 ∨ i = 2) as [-> | ->] by lia; simpl.
    + right. left.
    + left.
Defined.

Lemma inc_release_seen_counts_witness :
  ∃ rels', inc_release_seen 0 (releases_of_peer0 2) = Some rels' ∧
    get_release_seen 0 rels' = Some (2 + 1) ∧
    ∀ q, q ≠ 0 → get_release_seen q rels' = get_release_seen q (releases_of_peer0 2).
Proof.
  apply (inc_release_seen_counts 0 2 (releases_of_peer0 2));
    [reflexivity | unfold MAX_PEERS; lia | reflexivity | int_range | int_range].
Defined.

(** ** Clock *)

Lemma inc_after_observe_interleaved_witness :
  3 < (inc_lc (clock_ops [Tick; Observe 7] (update_lc_on_receive 3 0).2)).1.
Proof.
  apply (inc_after_observe_interleaved 3 0 [Tick; Observe 7]).
  - int_range.
  - int_range.
  - int_range.
  - vm_compute. split_and!; first [done | discriminate | exact I].
  - vm_compute. reflexivity.
Defined.

Lemma do_wait_out_of_range_witness :
  do_wait 200 (releases_of_peer0 2) [releases_of_peer0 3; releases_of_peer0 4]
  = Some Polling.
Proof.
  apply (do_wait_out_of_range 200). unfold MAX_PEERS. lia.
Defined.

(** X11.  After [update_lc_on_receive r] the clock is strictly above [r],
    and observing [r] again, or any older timestamp, changes nothing. *)
Theorem observe_passes_timestamp (r c : Z) :
  in_int r → r < INT_MAX →
  r < (update_lc_on_receive r c).2 ∧
  ∀ r', r' ≤ r →
    update_lc_on_receive r' (update_lc_on_receive r c).2
    = ((update_lc_on_receive r c).2, (update_lc_on_receive r c).2).
Proof.
  intros Hr Hmax.
  assert (r < (update_lc_on_receive r c).2) as Hlt.
  { destruct (Z.le_gt_cases c r).
    - rewrite update_lc_on_receive_ahead by done. simpl. lia.
    - rewrite update_lc_on_receive_behind by lia. simpl. lia. }
  split; [done|]. intros r' Hr'. apply update_lc_on_receive_behind. lia.
Qed.

Lemma observe_passes_timestamp_witness :
  5 < (update_lc_on_receive 5 2).2 ∧
  ∀ r', r' ≤ 5 →
    update_lc_on_receive r' (update_lc_on_receive 5 2).2
    = ((update_lc_on_receive 5 2).2, (update_lc_on_receive 5 2).2).
Proof. apply (observe_passes_timestamp 5 2); int_range. Defined.

(** ** Lines and handlers *)

Section handlers_more.
Implicit Types (s r : Peer) (m : Msg) (junk : Junk) (line : string).

Lemma decode_fmt_hello junk (pid : Z) : decode junk (fmt_hello pid) = Hello.
Proof.
  unfold decode, sscanf_line, fmt_hello.
  change ("HELLO " +:+ ?x)
    with (String "H" (String "E" (String "L" (String "L" (String "O" (String " " x)))))).
  rewrite skip_space_nonspace by reflexivity.
  change (scan_word 15
            (String "H" (String "E" (String "L" (String "L" (String "O" (String " " ?x)))))))
    with ("HELLO", String " " x).
  cbv beta iota.
  destruct (Z.ltb_spec (1 + Z.of_nat (length (scan_ints 4 (String " " (pretty pid +:+ newline))))) 1);
    [lia | reflexivity].
Qed.

(** X12.  Every line the program writes is read back as the message it was
    written from: the REQ, ACK and REL lines with all their fields, whatever
    the locals of [process_line] held before, and the HELLO line. *)
Theorem wire_round_trip junk (a b c d : Z) :
  in_int a → in_int b → in_int c → in_int d →
  decode junk (fmt_req a b) = Req a b ∧
  decode junk (fmt_ack a b c d) = Ack a b c d ∧
  decode junk (fmt_rel a b c) = Rel a b c ∧
  decode junk (fmt_hello a) = Hello.
Proof.
  intros Ha Hb Hc Hd. split_and!.
  - by apply decode_fmt_req.
  - by apply decode_fmt_ack.
  - by apply decode_fmt_rel.
  - apply decode_fmt_hello.
Qed.

Lemma handlers_frame_config junk line s s' (out : list Packet) :
  process_line junk line s = Some (s', out) → N s' = N s ∧ my_pid s' = my_pid s.
Proof.
  unfold process_line.
  destruct (decode junk line) as [| |rlc rpid|al from flc fpid|rel rlc rpid|]; simpl.
  - by intros [= <- <-].
  - by intros [= <- <-].
  - destruct (update_lc_on_receive rlc (lc s)) as [? lc1].
    destruct (inc_lc lc1) as [mylc lc2]. by intros [= <- <-].
  - destruct (update_lc_on_receive al (lc s)) as [? lc1].
    destruct (fpid =? my_pid s); [|by intros [= <- <-]].
    destruct (set_ack from al (ack_lc s)); by intros [= <- <-].
  - destruct (update_lc_on_receive rel (lc s)) as [? lc1].
    destruct (inc_release_seen rpid (releases_seen s)); by intros [= <- <-].
  - by intros [= <- <-].
Qed.

(** X13.  The handshake of [connector_thread] and blank lines change
    nothing at the receiver and make it send nothing. *)
Theorem hello_and_blank_lines_ignored junk line (sender s : Peer) :
  (∀ pkt, pkt ∈ connector_thread sender →
     process_line junk (payload pkt) s = Some (s, [])) ∧
  (skip_space line = EmptyString → process_line junk line s = Some (s, [])).
Proof.
  split.
  - intros pkt Hpkt. unfold connector_thread in Hpkt.
    apply list_elem_of_bind in Hpkt as (i & Hpkt & _).
    destruct (i =? my_pid sender); [by apply elem_of_nil in Hpkt|].
    apply list_elem_of_singleton in Hpkt as ->. simpl.
    unfold process_line. by rewrite decode_fmt_hello.
  - intros Hblank. unfold process_line. by rewrite sscanf_line_blank.
Qed.

(** X14.  What a handled message can touch: none changes [N] or [my_pid];
    only an ACK addressed to this peer changes the ack table; only a REL
    changes the release counters; only a REQ or a REL changes the queue;
    and only a REQ makes the peer send anything. *)
Theorem handlers_touch junk line s s' (out : list Packet) :
  process_line junk line s = Some (s', out) →
  N s' = N s ∧ my_pid s' = my_pid s ∧
  (ack_lc s' ≠ ack_lc s →
     ∃ ack_l from for_req_lc, decode junk line = Ack ack_l from for_req_lc (my_pid s)) ∧
  (releases_seen s' ≠ releases_seen s →
     ∃ rel_lc rlc rpid, decode junk line = Rel rel_lc rlc rpid) ∧
  (queue_head s' ≠ queue_head s →
     ∃ rlc rpid, decode junk line = Req rlc rpid ∨ ∃ rel_lc, decode junk line = Rel rel_lc rlc rpid) ∧
  (out ≠ [] → ∃ rlc rpid, decode junk line = Req rlc rpid).
Proof.
  unfold process_line.
  destruct (decode junk line) as [| |rlc rpid|al from flc fpid|rel rlc rpid|]; simpl.
  - intros [= <- <-]. split_and!; done.
  - intros [= <- <-]. split_and!; done.
  - destruct (update_lc_on_receive rlc (lc s)) as [? lc1].
    destruct (inc_lc lc1) as [mylc lc2]. intros [= <- <-]. simpl.
    split_and!; [done | done | done | done | eauto | eauto].
  - destruct (update_lc_on_receive al (lc s)) as [? lc1].
    destruct (Z.eqb_spec fpid (my_pid s)) as [->|Hne].
    + destruct (set_ack from al (ack_lc s)); intros [= <- <-]. simpl.
      split_and!; [done | done | eauto | done | done | done].
    + intros [= <- <-]. simpl. split_and!; done.
  - destruct (update_lc_on_receive rel (lc s)) as [? lc1].
    destruct (inc_release_seen rpid (releases_seen s)); intros [= <- <-]. simpl.
    split_and!; [done | done | done | eauto | eauto | done].
  - intros [= <- <-]. split_and!; done.
Qed.

Lemma queue_insert_then_remove (ts pid : Z) (q : list ReqEntry) :
  queue_remove ts pid (queue_insert ts pid q) = q.
Proof.
  induction q as [|e q IH]; simpl.
  - rewrite (proj2 (same_key_eq _ _ _)); done.
  - destruct (walks_past e ts pid) eqn:Hw; simpl.
    + by rewrite walks_past_not_same, IH.
    + rewrite (proj2 (same_key_eq _ _ _)); done.
Qed.

Lemma handle_req_queue s (ts pid : Z) :
  ∃ s1 out, handle (Req ts pid) s = Some (s1, out) ∧
    queue_head s1 = queue_insert ts pid (queue_head s) ∧
    ack_lc s1 = ack_lc s ∧ releases_seen s1 = releases_seen s.
Proof.
  unfold handle. destruct (update_lc_on_receive ts (lc s)) as [? lc1].
  destruct (inc_lc lc1) as [mylc lc2]. by eexists _, _.
Qed.

Lemma handle_rel_queue s (rel_lc ts pid : Z) :
  length (releases_seen s) = Z.to_nat MAX_PEERS →
  ∃ s2, handle (Rel rel_lc ts pid) s = Some (s2, []) ∧
    queue_head s2 = queue_remove ts pid (queue_head s) ∧ ack_lc s2 = ack_lc s.
Proof.
  intros Hr. unfold handle. destruct (update_lc_on_receive rel_lc (lc s)) as [? lc1].
  destruct (inc_release_seen_defined pid (releases_seen s) Hr) as (rels' & -> & _).
  simpl. by eexists.
Qed.

(** X15.  A request line followed by the release line of the same request
    leaves the queue of the peer as it was before the two, whatever else it
    held, and the ack table untouched. *)
Theorem request_then_release junk1 junk2 line1 line2 s (ts pid rel_lc : Z) :
  peer_ok s →
  decode junk1 line1 = Req ts pid →
  decode junk2 line2 = Rel rel_lc ts pid →
  ∃ s1 out1 s2,
    process_line junk1 line1 s = Some (s1, out1) ∧
    process_line junk2 line2 s1 = Some (s2, []) ∧
    queue_head s2 = queue_head s ∧ ack_lc s2 = ack_lc s.
Proof.
  intros (Ha & Hr & HN & Hme) Hd1 Hd2. unfold process_line. rewrite Hd1, Hd2.
  destruct (handle_req_queue s ts pid) as (s1 & out1 & H1 & Hq1 & Ha1 & Hr1).
  destruct (handle_rel_queue s1 rel_lc ts pid) as (s2 & H2 & Hq2 & Ha2); [congruence|].
  exists s1, out1, s2. split_and!; [done | done | | congruence].
  rewrite Hq2, Hq1. apply queue_insert_then_remove.
Qed.

(** X16.  Whatever lines a connection delivers, and whatever the locals
    hold, a well-formed peer handles all of them without indexing outside
    its arrays, and stays well-formed with the same [N] and [my_pid]. *)
Theorem conn_reader_stays_in_bounds (lines : list (Junk * string)) s :
  peer_ok s →
  ∃ s' out, conn_reader lines s = Some (s', out) ∧
            peer_ok s' ∧ N s' = N s ∧ my_pid s' = my_pid s.
Proof.
  revert s. induction lines as [|[junk buf] lines IH]; intros s Hok; simpl.
  - by eexists _, _.
  - destruct (process_line_defined junk buf s Hok) as (s1 & out1 & Hp & Hok1).
    rewrite Hp. simpl.
    destruct (IH s1 Hok1) as (s2 & out2 & -> & Hok2 & HN & Hme). simpl.
    destruct (handlers_frame_config junk buf s s1 out1 Hp) as [HN1 Hme1].
    eexists _, _. split_and!; [done | done | congruence | congruence].
Qed.

(** X17.  Handling a message never sets the clock back, and leaves it
    strictly above the timestamp the message carries (as long as nothing
    wraps). *)
Theorem handle_advances_clock m s s' (out : list Packet) :
  handle m s = Some (s', out) →
  in_int (lc s) → lc s < INT_MAX →
  (∀ t, stamp m = Some t → in_int t ∧ t < INT_MAX - 1) →
  lc s ≤ lc s' ∧ ∀ t, stamp m = Some t → t < lc s'.
Proof.
  intros Hh Hc Hmax Hst.
  assert (Hobs : ∀ t, in_int t → t < INT_MAX - 1 →
            lc s ≤ (update_lc_on_receive t (lc s)).2 ∧
            t < (update_lc_on_receive t (lc s)).2 ∧
            in_int (update_lc_on_receive t (lc s)).2 ∧
            (update_lc_on_receive t (lc s)).2 < INT_MAX).
  { intros t Ht Htm. destruct (Z.le_gt_cases (lc s) t).
    - rewrite update_lc_on_receive_ahead by int_range. simpl. int_range.
    - rewrite update_lc_on_receive_behind by lia. simpl. int_range. }
  unfold handle in Hh.
  destruct m as [| |rlc rpid|al from flc fpid|rel rlc rpid|].
  - simplify_eq. split; [lia | done].
  - simplify_eq. split; [lia | done].
  - destruct (Hst rlc eq_refl) as [Ht Htm].
    destruct (Hobs rlc Ht Htm) as (H1 & H2 & H3 & H4).
    destruct (update_lc_on_receive rlc (lc s)) as [? lc1]. cbn [snd] in *.
    rewrite (inc_lc_no_overflow lc1) in Hh by done. simplify_eq/=.
    split; [lia|]. intros t [= <-]. lia.
  - destruct (Hst al eq_refl) as [Ht Htm].
    destruct (Hobs al Ht Htm) as (H1 & H2 & H3 & H4).
    destruct (update_lc_on_receive al (lc s)) as [? lc1]. cbn [snd] in *.
    destruct (fpid =? my_pid s).
    + destruct (set_ack from al (ack_lc s)); simplify_eq/=.
      split; [lia|]. intros t [= <-]. lia.
    + simplify_eq/=. split; [lia|]. intros t [= <-]. lia.
  - destruct (Hst rel eq_refl) as [Ht Htm].
    destruct (Hobs rel Ht Htm) as (H1 & H2 & H3 & H4).
    destruct (update_lc_on_receive rel (lc s)) as [? lc1]. cbn [snd] in *.
    destruct (inc_release_seen rpid (releases_seen s)); simplify_eq/=.
    split; [lia|]. intros t [= <-]. lia.
  - simplify_eq. split; [lia | done].
Qed.
End handlers_more.

Lemma wire_round_trip_witness :
  decode no_junk (fmt_req 3 0) = Req 3 0 ∧
  decode no_junk (fmt_ack 3 0 1 1) = Ack 3 0 1 1 ∧
  decode no_junk (fmt_rel 3 0 1) = Rel 3 0 1 ∧
  decode no_junk (fmt_hello 3) = Hello.
Proof. apply (wire_round_trip no_junk 3 0 1 1); int_range. Defined.

Lemma hello_and_blank_lines_ignored_witness :
  process_line no_junk (fmt_hello 1) (peer_init 2 0) = Some (peer_init 2 0, []) ∧
  process_line no_junk "   " (peer_init 2 0) = Some (peer_init 2 0, []).
Proof.
  destruct (hello_and_blank_lines_ignored no_junk "   " (peer_init 2 1) (peer_init 2 0))
    as [Hhello Hblank].
  split.
  - apply (Hhello (mkPacket 0 (fmt_hello 1))). vm_compute. left.
  - apply Hblank. reflexivity.
Defined.

Lemma handlers_touch_witness :
  match process_line no_junk "REQ 3 1" (peer_init 2 0) with
  | Some (s', _) => N s' = 2 ∧ my_pid s' = 0
  | None => False
  end.
Proof.
  destruct (process_line no_junk "REQ 3 1" (peer_init 2 0)) as [[s' out]|] eqn:Hp;
    [| vm_compute in Hp; discriminate].
  destruct (handlers_touch _ _ _ _ _ Hp) as (HN & Hme & _). done.
Defined.

Lemma request_then_release_witness :
  ∃ s1 out1 s2,
    process_line no_junk "REQ 3 1" (peer_init 2 0) = Some (s1, out1) ∧
    process_line no_junk "REL 9 3 1" s1 = Some (s2, []) ∧
    queue_head s2 = queue_head (peer_init 2 0) ∧ ack_lc s2 = ack_lc (peer_init 2 0).
Proof.
  apply (request_then_release no_junk no_junk "REQ 3 1" "REL 9 3 1" (peer_init 2 0) 3 1 9);
    [apply peer_init_ok; unfold MAX_PEERS; lia | reflexivity | reflexivity].
Defined.

Lemma conn_reader_stays_in_bounds_witness :
  ∃ s' out,
    conn_reader [(no_junk, "REQ 3 1"); (mkJunk 1 2 3 4, "ACK 7"); (no_junk, "REL")]
      (peer_init 2 0) = Some (s', out) ∧
    peer_ok s' ∧ N s' = N (peer_init 2 0) ∧ my_pid s' = my_pid (peer_init 2 0).
Proof.
  apply (conn_reader_stays_in_bounds
           [(no_junk, "REQ 3 1"); (mkJunk 1 2 3 4, "ACK 7"); (no_junk, "REL")]).
  apply peer_init_ok; unfold MAX_PEERS; lia.
Defined.

Lemma handle_advances_clock_witness :
  match handle (Req 3 1) (peer_init 2 0) with
  | Some (s', _) => lc (peer_init 2 0) ≤ lc s' ∧ 3 < lc s'
  | None => False
  end.
Proof.
  destruct (handle (Req 3 1) (peer_init 2 0)) as [[s' out]|] eqn:Hp;
    [| vm_compute in Hp; discriminate].
  destruct (handle_advances_clock _ _ _ _ Hp) as [Hle Hlt].
  - simpl. int_range.
  - simpl. int_range.
  - intros t [= <-]. int_range.
  - split; [exact Hle | by apply Hlt].
Defined.

(** ** Sending, and the lock cycle *)

Section cycle_more.
Implicit Types (s : Peer) (msg : string) (ts : Z).

Lemma broadcast_short_eq msg s :
  broadcast_short msg s
  = (λ i, mkPacket i msg) <$> filter (λ i, i ≠ my_pid s) (seqZ 0 (N s)).
Proof.
  unfold broadcast_short.
  assert (∀ l : list Z, (∀ i, i ∈ l → 0 ≤ i < N s) →
            (l ≫= λ i, if i =? my_pid s then [] else send_short i msg s)
            = (λ i, mkPacket i msg) <$> filter (λ i, i ≠ my_pid s) l) as Hgen.
  { induction l as [|i l IH]; intros Hl; [done|].
    rewrite filter_cons. cbn [mbind list_bind]. rewrite IH.
    2:{ intros j Hj. apply Hl. by right. }
    specialize (Hl i ltac:(by left)).
    destruct (Z.eqb_spec i (my_pid s)) as [->|Hne].
    - rewrite decide_False by (intros ?; done). done.
    - rewrite decide_True by done. unfold send_short.
      destruct (Z.ltb_spec i 0); [lia|]. destruct (Z.geb_spec i (N s)); [lia|]. done. }
  apply Hgen. intros i Hi%elem_of_seqZ. lia.
Qed.

(** X18.  [broadcast_short] sends the line exactly once to every peer id in
    [0 .. N-1] other than the sender's own, and to nobody else. *)
Theorem broadcast_short_recipients msg s :
  NoDup (broadcast_short msg s) ∧
  ∀ pkt, pkt ∈ broadcast_short msg s ↔
         payload pkt = msg ∧ 0 ≤ dst pkt < N s ∧ dst pkt ≠ my_pid s.
Proof.
  rewrite broadcast_short_eq. split.
  - apply NoDup_fmap_2_strong; [by intros i j _ _ [=] |].
    apply NoDup_filter, NoDup_seqZ.
  - intros [d pl]. rewrite list_elem_of_fmap. simpl. split.
    + intros (i & [= -> ->] & [Hne Hi%elem_of_seqZ]%list_elem_of_filter).
      split_and!; [done | lia | lia | done].
    + intros (-> & Hd & Hne). exists d. split; [done|].
      apply list_elem_of_filter. split; [done|]. apply elem_of_seqZ. lia.
Qed.

(** X19.  A round of the polling loop of [do_request] leaves the loop
    exactly when the peer's own request is the first entry of its queue at
    the time the round looks at the queue, and every slot [0 .. N-1] of the
    ack table holds at least the request's timestamp at the time the round
    looks at the table.  The two can be different states of the process. *)
Theorem polling_round_iff ts at_head at_acks :
  peer_ok at_acks →
  ∃ b, polling_round ts at_head at_acks = Some b ∧
    (b = true ↔
     (∃ rest, queue_head at_head = mkReq ts (my_pid at_head) :: rest) ∧
     ∀ j v, 0 ≤ j < N at_acks → array_read (ack_lc at_acks) j = Some v → ts ≤ v).
Proof.
  intros (Ha & Hr & HN & Hme). unfold polling_round.
  destruct (all_acks_ge_slots (N at_acks) ts (ack_lc at_acks) Ha ltac:(lia))
    as (b & Hall & Hb).
  destruct (queue_head at_head) as [|e rest] eqn:Hq; simpl.
  - exists false. split; [done|]. split; [done|]. by intros [[? ?] _].
  - destruct (same_key e ts (my_pid at_head)) eqn:Hk; simpl.
    + apply same_key_eq in Hk as ->. exists b. split; [done|].
      rewrite Hb. split; [intros ?; eauto | by intros [_ ?]].
    + exists false. split; [done|]. split; [done|]. intros [[rest' [= -> _]] _].
      unfold same_key in Hk. simpl in Hk. by rewrite !Z.eqb_refl in Hk.
Qed.

(** X20.  A peer that is alone ([N = 1]) with an empty queue sends nothing
    when it asks for the lock and passes the first round of the polling
    loop. *)
Theorem lone_peer_granted_at_once s :
  peer_ok s → N s = 1 → queue_head s = [] →
  ∃ s2,
    do_request_post (do_request_tick s).1 (do_request_tick s).2 = Some (s2, []) ∧
    grant_test (do_request_tick s).1 s2 = Some true.
Proof.
  intros (Ha & Hr & HN & Hme) HN1 Hq.
  assert (my_pid s = 0) as Hme0 by lia.
  unfold do_request_tick. destruct (inc_lc (lc s)) as [ts lc1]. cbn [fst snd].
  unfold do_request_post. cbn [N my_pid queue_head ack_lc with_lc].
  rewrite HN1, Hme0, Hq. unfold ack_reset.
  destruct (ack_clear_from_spec (Z.to_nat 1) 0 (ack_lc s)) as (cleared & -> & Hlc & _);
    [lia | unfold MAX_PEERS in *; lia |]. simpl.
  rewrite array_write_Some by (unfold MAX_PEERS in *; lia). simpl.
  eexists. split.
  - unfold broadcast_short, send_short. simpl. rewrite HN1, Hme0. reflexivity.
  - unfold grant_test, polling_round. simpl. rewrite Hme0, HN1.
    unfold same_key. simpl. rewrite !Z.eqb_refl. simpl.
    unfold all_acks_ge. apply all_acks_ge_from_true;
      [lia | rewrite length_insert; unfold MAX_PEERS in *; lia |].
    intros j v Hj Hv. assert (j = 0%nat) as -> by lia.
    rewrite list_lookup_insert_eq in Hv by (unfold MAX_PEERS in *; lia).
    simplify_eq. lia.
Qed.

Lemma lone_peer_post ts s :
  peer_ok s → N s = 1 → queue_head s = [] →
  ∃ acks,
    ack_reset 1 0 ts (ack_lc s) = Some acks ∧
    do_request_post ts s = Some (with_ack acks (with_queue [mkReq ts 0] s), []) ∧
    grant_test ts (with_ack acks (with_queue [mkReq ts 0] s)) = Some true.
Proof.
  intros (Ha & Hr & HN & Hme) HN1 Hq.
  assert (my_pid s = 0) as Hme0 by lia.
  unfold do_request_post. rewrite HN1, Hme0, Hq. unfold ack_reset.
  destruct (ack_clear_from_spec (Z.to_nat 1) 0 (ack_lc s)) as (cleared & -> & Hlc & _);
    [lia | unfold MAX_PEERS in *; lia |]. simpl.
  rewrite array_write_Some by (unfold MAX_PEERS in *; lia). simpl.
  eexists. split; [reflexivity|]. split.
  - unfold broadcast_short, send_short. simpl. rewrite HN1, Hme0. reflexivity.
  - unfold grant_test, polling_round. simpl. rewrite Hme0, HN1.
    unfold same_key. simpl. rewrite !Z.eqb_refl. simpl.
    unfold all_acks_ge. apply all_acks_ge_from_true;
      [lia | rewrite length_insert; unfold MAX_PEERS in *; lia |].
    intros j v Hj Hv. assert (j = 0%nat) as -> by lia.
    rewrite list_lookup_insert_eq in Hv by (unfold MAX_PEERS in *; lia).
    simplify_eq. lia.
Qed.

(** X21.  The whole lock cycle of a peer that is alone ([N = 1]), from an
    empty queue: the request takes the clock value after one tick, nothing
    is sent, the first round of the polling loop grants the lock, and the
    release leaves the queue empty again, the clock two ticks on and the
    peer's own release counter incremented. *)
Theorem lone_peer_lock_cycle s :
  peer_ok s → N s = 1 → queue_head s = [] → in_int (lc s) → lc s < INT_MAX - 1 →
  ∃ s2 s3 rels,
    do_request_tick s = (lc s + 1, with_lc (lc s + 1) s) ∧
    do_request_post (lc s + 1) (with_lc (lc s + 1) s) = Some (s2, []) ∧
    grant_test (lc s + 1) s2 = Some true ∧
    do_request_release (lc s + 1) s2 = Some (s3, []) ∧
    queue_head s3 = [] ∧ lc s3 = lc s + 2 ∧
    inc_release_seen (my_pid s) (releases_seen s) = Some rels ∧
    releases_seen s3 = rels.
Proof.
  intros Hok HN1 Hq Hc Hmax.
  destruct (lone_peer_post (lc s + 1) (with_lc (lc s + 1) s))
    as (acks & _ & Hpost & Hgrant); [done..|].
  destruct Hok as (Ha & Hr & HN & Hme).
  assert (my_pid s = 0) as Hme0 by lia.
  destruct (inc_release_seen_defined (my_pid s) (releases_seen s) Hr) as (rels & Hrel & _).
  eexists _, _, rels. split.
  { unfold do_request_tick. by rewrite (inc_lc_no_overflow (lc s)) by int_range. }
  split; [exact Hpost|]. split; [exact Hgrant|].
  unfold do_request_release.
  cbn [N my_pid queue_head ack_lc lc releases_seen with_lc with_ack with_queue].
  rewrite (inc_lc_no_overflow (lc s + 1)) by int_range. rewrite Hrel. simpl.
  rewrite Hme0. unfold same_key. simpl. rewrite !Z.eqb_refl. simpl.
  replace (lc s + 1 + 1) with (lc s + 2) by lia.
  split.
  { unfold broadcast_short, send_short. simpl. rewrite HN1, Hme0. reflexivity. }
  split_and!; reflexivity.
Qed.

(** X22.  The reset of [do_request] writes [ack_lc[my_pid]] without a
    guard: with tables of the declared size and [N <= MAX_PEERS], the first
    part of [do_request] stays inside the ack table exactly when the process
    id is in [0 .. MAX_PEERS-1]. *)
Theorem do_request_post_in_bounds ts s :
  length (ack_lc s) = Z.to_nat MAX_PEERS → N s ≤ MAX_PEERS →
  is_Some (do_request_post ts s) ↔ 0 ≤ my_pid s < MAX_PEERS.
Proof.
  intros Ha HN. unfold do_request_post. split.
  - intros [[s' out] Hp]. unfold ack_reset in Hp.
    destruct (ack_clear_from_spec (Z.to_nat (N s)) 0 (ack_lc s)) as (cleared & Hc & Hlc & _);
      [lia | unfold MAX_PEERS in *; lia |].
    rewrite Hc in Hp. simpl in Hp. unfold array_write in Hp.
    destruct ((0 <=? my_pid s) && (my_pid s <? Z.of_nat (length cleared))) eqn:Hr; [|done].
    apply andb_true_iff in Hr as [H1 H2]. apply Z.leb_le in H1. apply Z.ltb_lt in H2.
    unfold MAX_PEERS in *. lia.
  - intros Hme.
    destruct (ack_reset_defined (N s) (my_pid s) ts (ack_lc s)) as (acks' & -> & _);
      [done..|]. done.
Qed.
End cycle_more.

(** Peer 0 of two with the request (1,0): when the round looks at the queue
    the request is at its head and the ACK of peer 1 is still to come; when
    it looks at the ack table the ACK is in, and a request (0,1) has taken
    the head.  The round leaves the loop; a round that found either state
    at both calls would not. *)
Lemma polling_round_iff_witness :
  (∃ b, polling_round 1
          (with_queue [mkReq 1 0] (peer_init 2 0))
          (with_ack (<[1%nat := 3]> (<[0%nat := 1]> (ack_lc (peer_init 2 0))))
             (with_queue [mkReq 0 1; mkReq 1 0] (peer_init 2 0))) = Some b ∧
    (b = true ↔
     (∃ rest, queue_head (with_queue [mkReq 1 0] (peer_init 2 0))
              = mkReq 1 (my_pid (with_queue [mkReq 1 0] (peer_init 2 0))) :: rest) ∧
     ∀ j v,
       0 ≤ j < N (with_ack (<[1%nat := 3]> (<[0%nat := 1]> (ack_lc (peer_init 2 0))))
                    (with_queue [mkReq 0 1; mkReq 1 0] (peer_init 2 0))) →
       array_read
         (ack_lc (with_ack (<[1%nat := 3]> (<[0%nat := 1]> (ack_lc (peer_init 2 0))))
                    (with_queue [mkReq 0 1; mkReq 1 0] (peer_init 2 0)))) j = Some v →
       1 ≤ v)) ∧
  polling_round 1
    (with_queue [mkReq 1 0] (peer_init 2 0))
    (with_ack (<[1%nat := 3]> (<[0%nat := 1]> (ack_lc (peer_init 2 0))))
       (with_queue [mkReq 0 1; mkReq 1 0] (peer_init 2 0))) = Some true ∧
  grant_test 1 (with_queue [mkReq 1 0] (peer_init 2 0)) = Some false ∧
  grant_test 1
    (with_ack (<[1%nat := 3]> (<[0%nat := 1]> (ack_lc (peer_init 2 0))))
       (with_queue [mkReq 0 1; mkReq 1 0] (peer_init 2 0))) = Some false.
Proof.
  split_and!; try (vm_compute; reflexivity).
  apply (polling_round_iff 1).
  split_and!; try reflexivity; simpl; unfold MAX_PEERS; lia.
Defined.

Lemma lone_peer_granted_at_once_witness :
  ∃ s2,
    do_request_post (do_request_tick (peer_init 1 0)).1 (do_request_tick (peer_init 1 0)).2
      = Some (s2, []) ∧
    grant_test (do_request_tick (peer_init 1 0)).1 s2 = Some true.
Proof.
  apply (lone_peer_granted_at_once (peer_init 1 0));
    [apply peer_init_ok; unfold MAX_PEERS; lia | reflexivity | reflexivity].
Defined.

Lemma lone_peer_lock_cycle_witness :
  ∃ s2 s3 rels,
    do_request_tick (peer_init 1 0)
      = (lc (peer_init 1 0) + 1, with_lc (lc (peer_init 1 0) + 1) (peer_init 1 0)) ∧
    do_request_post (lc (peer_init 1 0) + 1)
      (with_lc (lc (peer_init 1 0) + 1) (peer_init 1 0)) = Some (s2, []) ∧
    grant_test (lc (peer_init 1 0) + 1) s2 = Some true ∧
    do_request_release (lc (peer_init 1 0) + 1) s2 = Some (s3, []) ∧
    queue_head s3 = [] ∧ lc s3 = lc (peer_init 1 0) + 2 ∧
    inc_release_seen (my_pid (peer_init 1 0)) (releases_seen (peer_init 1 0)) = Some rels ∧
    releases_seen s3 = rels.
Proof.
  apply (lone_peer_lock_cycle (peer_init 1 0));
    [apply peer_init_ok; unfold MAX_PEERS; lia | reflexivity | reflexivity
    | simpl; int_range | simpl; int_range].
Defined.

(** A process started with id 200: the reset leaves the ack table. *)
Lemma do_request_post_in_bounds_witness :
  is_Some (do_request_post 1 (peer_init 2 0)) ∧
  do_request_post 1 (peer_init 2 200) = None.
Proof.
  split.
  - apply (do_request_post_in_bounds 1 (peer_init 2 0));
      [reflexivity | simpl; unfold MAX_PEERS; lia | simpl; unfold MAX_PEERS; lia].
  - vm_compute. reflexivity.
Defined.

(** ** The instruction file *)

Section script.
Implicit Types (l rest text : string) (lines : list string) (me target d : Z).

Lemma string_length_app (a b : string) :
  String.length (a +:+ b) = (String.length a + String.length b)%nat.
Proof. induction a as [|c a IH]; simpl; [done | by rewrite IH]. Qed.

Lemma string_app_nil_r (a : string) : a +:+ EmptyString = a.
Proof.
  induction a as [|c a IH]; [done|].
  change (String c (a +:+ EmptyString) = String c a). by f_equal.
Qed.

Lemma scan_int_in_int (s : string) v rest : scan_int s = Some (v, rest) → in_int v.
Proof.
  unfold scan_int.
  destruct (match skip_space s with
            | String c r =>
                if Ascii.eqb c "-" then (true, r)
                else if Ascii.eqb c "+" then (false, r) else (false, skip_space s)
            | EmptyString => (false, skip_space s)
            end) as [negative s1].
  destruct s1 as [|c t]; [done|]. destruct (isdigit c); [|done].
  destruct (scan_digits 0 (String c t)) as [w r]. intros [= <- _]. apply wrap_range.
Qed.

Lemma atoi_pretty (z : Z) : in_int z → atoi (pretty z) = z.
Proof.
  intros Hz. unfold atoi. rewrite <- (string_app_nil_r (pretty z)).
  rewrite scan_int_pretty by exact I. by apply wrap_clamp_in_int.
Qed.

Lemma getlines_single l rest :
  single_line l = true → getlines (l +:+ rest) = l :: getlines rest.
Proof.
  induction l as [|c r IH]; [done|].
  change (String c r +:+ rest) with (String c (r +:+ rest)).
  cbn [single_line getlines].
  destruct (Ascii.eqb c (ascii_of_nat 10)).
  - destruct r; [intros _; reflexivity | discriminate].
  - intros Hr. by rewrite (IH Hr).
Qed.

Lemma getlines_file lines :
  Forall (λ l, single_line l = true) lines → getlines (file_of_lines lines) = lines.
Proof.
  induction 1 as [|l lines Hl _ IH]; [done|].
  change (file_of_lines (l :: lines)) with (l +:+ file_of_lines lines).
  rewrite getlines_single by done. f_equal. exact IH.
Qed.

Lemma instruction_long_enough (a b : string) :
  (2 ≤ String.length b)%nat → (String.length (a +:+ b) <=? 1)%nat = false.
Proof. intros Hb. apply Nat.leb_gt. rewrite string_length_app. lia. Qed.

(** X24.  An instruction line written as [<id> Lock <n>] or [<id> Wait <n>]
    makes the process with that id run the command with that argument, and
    is skipped by every other process. *)
Theorem instruction_with_argument me target d :
  in_int target → in_int d →
  instruction me (pretty target +:+ " Lock " +:+ pretty d +:+ newline)
    = (if decide (target = me) then Some (Lock d) else None) ∧
  instruction me (pretty target +:+ " Wait " +:+ pretty d +:+ newline)
    = (if decide (target = me) then Some (Wait d) else None).
Proof.
  intros Ht Hd. split.
  - unfold instruction.
    rewrite instruction_long_enough
      by (rewrite string_length_app; simpl; lia).
    rewrite scan_int_pretty by reflexivity.
    change (skip_space (" Lock " +:+ ?x))
      with (String "L" (String "o" (String "c" (String "k" (String " " x))))).
    cbv beta iota.
    change (scan_word 63 (String "L" (String "o" (String "c" (String "k" (String " " ?x))))))
      with ("Lock", String " " x).
    cbv beta iota. rewrite scan_int_space, scan_int_pretty by reflexivity.
    rewrite !wrap_clamp_in_int by done.
    destruct (Z.eqb_spec target me); simpl.
    + by rewrite decide_True.
    + by rewrite decide_False.
  - unfold instruction.
    rewrite instruction_long_enough
      by (rewrite string_length_app; simpl; lia).
    rewrite scan_int_pretty by reflexivity.
    change (skip_space (" Wait " +:+ ?x))
      with (String "W" (String "a" (String "i" (String "t" (String " " x))))).
    cbv beta iota.
    change (scan_word 63 (String "W" (String "a" (String "i" (String "t" (String " " ?x))))))
      with ("Wait", String " " x).
    cbv beta iota. rewrite scan_int_space, scan_int_pretty by reflexivity.
    rewrite !wrap_clamp_in_int by done.
    destruct (Z.eqb_spec target me); simpl.
    + by rewrite decide_True.
    + by rewrite decide_False.
Qed.

(** X25.  Without an argument, [Lock] runs with duration 1 and [Wait] waits
    for peer 0. *)
Theorem instruction_defaults me :
  in_int me →
  instruction me (pretty me +:+ " Lock" +:+ newline) = Some (Lock 1) ∧
  instruction me (pretty me +:+ " Wait" +:+ newline) = Some (Wait 0).
Proof.
  intros Hme. split.
  - unfold instruction.
    rewrite instruction_long_enough by (simpl; lia).
    rewrite scan_int_pretty by reflexivity.
    change (skip_space (" Lock" +:+ newline))
      with (String "L" (String "o" (String "c" (String "k" newline)))).
    cbv beta iota.
    change (scan_word 63 (String "L" (String "o" (String "c" (String "k" newline)))))
      with ("Lock", newline).
    cbv beta iota. change (scan_int newline) with (@None (Z * string)).
    rewrite wrap_clamp_in_int, Z.eqb_refl by done. reflexivity.
  - unfold instruction.
    rewrite instruction_long_enough by (simpl; lia).
    rewrite scan_int_pretty by reflexivity.
    change (skip_space (" Wait" +:+ newline))
      with (String "W" (String "a" (String "i" (String "t" newline)))).
    cbv beta iota.
    change (scan_word 63 (String "W" (String "a" (String "i" (String "t" newline)))))
      with ("Wait", newline).
    cbv beta iota. change (scan_int newline) with (@None (Z * string)).
    rewrite wrap_clamp_in_int, Z.eqb_refl by done. reflexivity.
Qed.

(** X26.  [run_instructions] skips the first line of the file whatever it
    holds, and takes the commands of the other lines in the order of the
    file. *)
Theorem run_instructions_in_order me (header : string) lines :
  single_line header = true →
  Forall (λ l, single_line l = true) lines →
  run_instructions me (header +:+ file_of_lines lines)
  = omap (instruction me) lines.
Proof.
  intros Hh Hl. unfold run_instructions.
  rewrite getlines_single by done. simpl. by rewrite getlines_file.
Qed.
End script.

Lemma instruction_with_argument_witness :
  instruction 1 (pretty 1 +:+ " Lock " +:+ pretty 3 +:+ newline)
    = (if decide (1 = 1) then Some (Lock 3) else None) ∧
  instruction 1 (pretty 1 +:+ " Wait " +:+ pretty 3 +:+ newline)
    = (if decide (1 = 1) then Some (Wait 3) else None).
Proof. apply (instruction_with_argument 1 1 3); int_range. Defined.

Lemma instruction_defaults_witness :
  instruction 2 (pretty 2 +:+ " Lock" +:+ newline) = Some (Lock 1) ∧
  instruction 2 (pretty 2 +:+ " Wait" +:+ newline) = Some (Wait 0).
Proof. apply (instruction_defaults 2). int_range. Defined.

Lemma run_instructions_in_order_witness :
  run_instructions 1
    (("2" +:+ newline) +:+
     file_of_lines ["0 Lock 2" +:+ newline; "1 Wait 0" +:+ newline; newline;
                    "1 Lock" +:+ newline])
  = [Wait 0; Lock 1].
Proof.
  rewrite (run_instructions_in_order 1 ("2" +:+ newline)
             ["0 Lock 2" +:+ newline; "1 Wait 0" +:+ newline; newline;
              "1 Lock" +:+ newline]).
  - reflexivity.
  - reflexivity.
  - repeat constructor.
Defined.

(** ** Launcher and start of the processes *)

Section launch.
Implicit Types (prog input text rest : string) (n i : Z).

Lemma main_of_child input text n rest i :
  scan_int text = Some (n, rest) → 0 < n → 0 ≤ i < n →
  main (child_argv (spawn input i)) (Some text)
  = if decide (n ≤ MAX_PEERS)
    then Started (peer_init n i) (run_instructions i text)
    else BadN.
Proof.
  intros Hscan Hn Hi. pose proof (scan_int_in_int _ _ _ Hscan) as Hint.
  unfold main, spawn. cbn [child_argv length Nat.ltb Nat.leb lookup list_lookup default id].
  rewrite atoi_pretty by int_range. rewrite Hscan.
  destruct (Z.leb_spec n 0); [lia|]. simpl.
  destruct (Z.gtb_spec n MAX_PEERS).
  - by rewrite decide_False by lia.
  - by rewrite decide_True by lia.
Qed.

(** Numbers are read as glibc reads them.  A numeral outside the range of a
    [long] is read as [LONG_MAX] or [LONG_MIN], which stored in an [int] are
    -1 and 0; one that fits a [long] is reduced modulo 2^32.  A launcher or
    a process given a file that starts with twenty nines stops with
    "bad N". *)
Example scan_int_saturates :
  scan_int "99999999999999999999" = Some (-1, EmptyString) ∧
  atoi "-99999999999999999999" = 0 ∧
  scan_int "4294967298 x" = Some (2, " x") ∧
  run_local ["./run_local"; "input.txt"] (Some "99999999999999999999") = LaunchBadN ∧
  main ["./process"; "0"; "input.txt"] (Some "99999999999999999999") = BadN.
Proof. split_and!; vm_compute; reflexivity. Qed.

(** X27.  Launcher and process read the same file: for a file that begins
    with a number that [fscanf] reads as [n > 0], the launcher starts [n]
    processes, and the one with index [i] starts as peer [i] of [n] in a
    well-formed initial state with the commands of the file addressed to
    [i]; when [n] exceeds [MAX_PEERS] every one of them stops with "bad N"
    instead. *)
Theorem launched_children_start prog input text n rest :
  scan_int text = Some (n, rest) → 0 < n →
  ∃ cs, run_local [prog; input] (Some text) = Spawned cs ∧
    length cs = Z.to_nat n ∧
    ∀ i, 0 ≤ i < n →
      ∃ c, cs !! Z.to_nat i = Some c ∧
        main (child_argv c) (Some text)
          = (if decide (n ≤ MAX_PEERS)
             then Started (peer_init n i) (run_instructions i text)
             else BadN) ∧
        (n ≤ MAX_PEERS → peer_ok (peer_init n i)).
Proof.
  intros Hscan Hn. unfold run_local.
  cbn [length Nat.ltb Nat.leb lookup list_lookup default]. rewrite Hscan.
  destruct (Z.leb_spec n 0); [lia|].
  eexists. split; [reflexivity|]. split.
  - by rewrite length_fmap, length_seqZ.
  - intros i Hi. exists (spawn input i). split_and!.
    + rewrite list_lookup_fmap, lookup_seqZ_lt by lia. simpl.
      do 2 f_equal. lia.
    + by eapply main_of_child.
    + intros Hmax. apply peer_init_ok; lia.
Qed.

(** X28.  No two processes started by the launcher write their output to
    the same file. *)
Theorem launcher_outputs_distinct (argv : list string) (contents : option string)
    (cs : list Child) :
  run_local argv contents = Spawned cs → NoDup (child_out <$> cs).
Proof.
  unfold run_local. destruct (length argv <? 2)%nat; [done|].
  destruct contents as [text|]; [|done].
  destruct (scan_int text) as [[n rest]|] eqn:Hscan; [|done].
  destruct (n <=? 0); [done|]. intros [= <-].
  pose proof (scan_int_in_int _ _ _ Hscan) as Hint.
  rewrite <- list_fmap_compose.
  apply NoDup_fmap_2_strong; [|apply NoDup_seqZ].
  intros i j Hi%elem_of_seqZ Hj%elem_of_seqZ Heq. unfold spawn in Heq. simpl in Heq.
  apply (inj (String.append "proc_")) in Heq.
  apply (f_equal scan_int) in Heq.
  rewrite !scan_int_pretty in Heq by reflexivity.
  rewrite !wrap_clamp_in_int in Heq by int_range. congruence.
Qed.
End launch.

Lemma launched_children_start_witness :
  ∃ cs, run_local ["./run_local"; "input.txt"]
          (Some ("2" +:+ newline +:+ "0 Lock 1" +:+ newline)) = Spawned cs ∧
    length cs = Z.to_nat 2 ∧
    ∀ i, 0 ≤ i < 2 →
      ∃ c, cs !! Z.to_nat i = Some c ∧
        main (child_argv c) (Some ("2" +:+ newline +:+ "0 Lock 1" +:+ newline))
          = (if decide (2 ≤ MAX_PEERS)
             then Started (peer_init 2 i)
                    (run_instructions i ("2" +:+ newline +:+ "0 Lock 1" +:+ newline))
             else BadN) ∧
        (2 ≤ MAX_PEERS → peer_ok (peer_init 2 i)).
Proof.
  apply (launched_children_start "./run_local" "input.txt"
           ("2" +:+ newline +:+ "0 Lock 1" +:+ newline) 2
           (newline +:+ "0 Lock 1" +:+ newline)); [reflexivity | lia].
Defined.

Lemma launcher_outputs_distinct_witness :
  NoDup (child_out <$> (spawn "input.txt" <$> seqZ 0 3)).
Proof.
  apply (launcher_outputs_distinct ["./run_local"; "input.txt"]
           (Some ("3" +:+ newline))).
  reflexivity.
Defined.

(** ** Runs of the whole system *)

Section system_more.
Implicit Types (sys : System) (nd : Node) (s : Peer) (n : nat).

Lemma set_ack_length (from v : Z) (a a' : list Z) :
  set_ack from v a = Some a' → length a' = length a.
Proof.
  unfold set_ack, array_write.
  destruct ((from <? 0) || (from >=? MAX_PEERS)); [by intros [= <-]|].
  destruct ((0 <=? from) && (from <? Z.of_nat (length a))); [|done].
  intros [= <-]. apply length_insert.
Qed.

Lemma inc_release_seen_length (pid : Z) (a a' : list Z) :
  inc_release_seen pid a = Some a' → length a' = length a.
Proof.
  unfold inc_release_seen, array_write.
  destruct ((pid <? 0) || (pid >=? MAX_PEERS)); [by intros [= <-]|].
  destruct (array_read a pid); [|done]. simpl.
  destruct ((0 <=? pid) && (pid <? Z.of_nat (length a))); [|done].
  intros [= <-]. apply length_insert.
Qed.

Lemma ack_clear_from_length (k : nat) (i : Z) (a a' : list Z) :
  ack_clear_from k i a = Some a' → length a' = length a.
Proof.
  revert i a. induction k as [|k IH]; intros i a; simpl; [by intros [= <-]|].
  unfold array_write.
  destruct ((0 <=? i) && (i <? Z.of_nat (length a))); [|done]. simpl.
  intros Hrec%IH. by rewrite length_insert in Hrec.
Qed.

Lemma ack_reset_length (N0 me T : Z) (a a' : list Z) :
  ack_reset N0 me T a = Some a' → length a' = length a.
Proof.
  unfold ack_reset. destruct (ack_clear_from _ _ _) as [cleared|] eqn:Hc; [|done].
  simpl. unfold array_write.
  destruct ((0 <=? me) && (me <? Z.of_nat (length cleared))); [|done].
  intros [= <-]. rewrite length_insert. by eapply ack_clear_from_length.
Qed.

(** No step of a peer changes [N], [my_pid] or the size of its tables, and
    whatever it sends is addressed to an id in [0 .. N-1]. *)
Lemma peer_step_frame (ev : Event) nd nd' (out : list Packet) :
  peer_step ev nd = Some (nd', out) →
  N (peer nd') = N (peer nd) ∧ my_pid (peer nd') = my_pid (peer nd) ∧
  length (ack_lc (peer nd')) = length (ack_lc (peer nd)) ∧
  length (releases_seen (peer nd')) = length (releases_seen (peer nd)) ∧
  Forall (λ pkt, 0 ≤ dst pkt < N (peer nd)) out.
Proof.
  assert (Hsend : ∀ pid msg s (n0 : Z), N s = n0 →
            Forall (λ pkt, 0 ≤ dst pkt < n0) (send_short pid msg s)).
  { intros pid msg s n0 <-. unfold send_short.
    destruct (Z.ltb_spec pid 0); [constructor|].
    destruct (Z.geb_spec pid (N s)); repeat constructor; simpl; lia. }
  assert (Hcast : ∀ msg s (n0 : Z), N s = n0 →
            Forall (λ pkt, 0 ≤ dst pkt < n0) (broadcast_short msg s)).
  { intros msg s n0 <-. rewrite broadcast_short_eq. apply Forall_fmap, Forall_forall.
    intros i [_ Hi%elem_of_seqZ]%list_elem_of_filter. simpl. lia. }
  intros Hstep. destruct ev as [junk line|l]; simpl in Hstep.
  - unfold process_line in Hstep.
    destruct (decode junk line) as [| |rlc rpid|al from flc fpid|rel rlc rpid|];
      simpl in Hstep.
    + simplify_eq. by split_and!.
    + simplify_eq. by split_and!.
    + destruct (update_lc_on_receive rlc (lc (peer nd))) as [? lc1].
      destruct (inc_lc lc1) as [mylc lc2]. simplify_eq/=.
      split_and!; [done..|]. by apply Hsend.
    + destruct (update_lc_on_receive al (lc (peer nd))) as [? lc1].
      destruct (fpid =? my_pid (peer nd)).
      * destruct (set_ack from al (ack_lc (peer nd))) as [acks|] eqn:Hs; simplify_eq/=.
        split_and!; [done | done | | done | done].
        by eapply set_ack_length.
      * simplify_eq/=. by split_and!.
    + destruct (update_lc_on_receive rel (lc (peer nd))) as [? lc1].
      destruct (inc_release_seen rpid (releases_seen (peer nd))) as [rels|] eqn:Hr;
        simplify_eq/=.
      split_and!; [done | done | done | | done].
      by eapply inc_release_seen_length.
    + simplify_eq. by split_and!.
  - revert Hstep. unfold local_step.
    destruct l, (phase nd) as [|t|t|t]; try done; intros Hstep.
    + unfold do_request_tick in Hstep. destruct (inc_lc (lc (peer nd))).
      simplify_eq/=. by split_and!.
    + unfold do_request_post in Hstep.
      destruct (ack_reset _ _ _ _) as [acks|] eqn:Hs; simplify_eq/=.
      split_and!; [done | done | | done |].
      * by eapply ack_reset_length.
      * by apply Hcast.
    + destruct (grant_test t (peer nd)) as [[]|]; simplify_eq/=. by split_and!.
    + unfold do_request_release in Hstep.
      destruct (inc_lc (lc (peer nd))) as [rel_l lc1].
      destruct (inc_release_seen _ _) as [rels|] eqn:Hr; simplify_eq/=.
      split_and!; [done | done | done | |].
      * by eapply inc_release_seen_length.
      * by apply Hcast.
Qed.

Lemma system_init_ok n :
  (0 < n)%nat → Z.of_nat n ≤ MAX_PEERS → system_ok n (system_init n).
Proof.
  intros Hn Hmax. unfold system_ok, system_init. simpl. split_and!.
  - by rewrite length_fmap, length_seq.
  - intros i nd. rewrite list_lookup_fmap.
    destruct (seq 0 n !! i) as [j|] eqn:Hj; [|done].
    apply lookup_seq in Hj as [-> Hi]. intros [= <-]. simpl.
    split_and!; [apply peer_init_ok; lia | done | done].
  - constructor.
Qed.

Lemma system_ok_update n sys (p : nat) nd nd' (out : list Packet) (rest : list Packet) :
  system_ok n sys → nodes sys !! p = Some nd →
  N (peer nd') = N (peer nd) → my_pid (peer nd') = my_pid (peer nd) →
  length (ack_lc (peer nd')) = length (ack_lc (peer nd)) →
  length (releases_seen (peer nd')) = length (releases_seen (peer nd)) →
  Forall (λ pkt, 0 ≤ dst pkt < N (peer nd)) out →
  Forall (λ pkt, 0 ≤ dst pkt < Z.of_nat n) rest →
  system_ok n (mkSystem (<[p := nd']> (nodes sys)) (rest ++ out)).
Proof.
  intros (Hlen & Hnodes & Hwire) Hp HN Hme Ha Hr Hout Hrest.
  destruct (Hnodes p nd Hp) as ((Ha0 & Hr0 & HN0 & Hme0) & HNn & Hmep).
  unfold system_ok. simpl. split_and!.
  - by rewrite length_insert.
  - intros i nd0 Hi. destruct (decide (i = p)) as [->|Hne].
    + rewrite list_lookup_insert_eq in Hi by (by eapply lookup_lt_Some).
      simplify_eq. unfold peer_ok. split_and!; congruence || lia.
    + rewrite list_lookup_insert_ne in Hi by done. by apply Hnodes.
  - apply Forall_app. split; [done|]. eapply Forall_impl; [done|].
    intros pkt. simpl. lia.
Qed.

Lemma step_ok n (a : Action) sys sys' :
  system_ok n sys → step a sys = Some sys' → system_ok n sys'.
Proof.
  intros Hok. pose proof Hok as (Hlen & Hnodes & Hwire). unfold step.
  destruct a as [p l|k junk].
  - destruct (nodes sys !! p) as [nd|] eqn:Hp; [|done]. simpl.
    destruct (local_step l nd) as [[nd' out]|] eqn:Hl; [|done]. simpl.
    intros [= <-].
    destruct (peer_step_frame (Act l) nd nd' out Hl) as (HN & Hme & Ha & Hr & Hout).
    by eapply system_ok_update.
  - destruct (wire sys !! k) as [pkt|] eqn:Hk; [|done]. simpl.
    destruct (dst pkt <? 0); [done|].
    destruct (nodes sys !! Z.to_nat (dst pkt)) as [nd|] eqn:Hp; [|done]. simpl.
    destruct (process_line junk (payload pkt) (peer nd)) as [[s' out]|] eqn:Hl; [|done].
    simpl. intros [= <-].
    destruct (peer_step_frame (Recv junk (payload pkt)) nd (mkNode s' (phase nd)) out)
      as (HN & Hme & Ha & Hr & Hout).
    { simpl. by rewrite Hl. }
    eapply system_ok_update; [done..|]. by apply Forall_delete.
Qed.

Lemma run_ok n (acts : list Action) sys sys' :
  system_ok n sys → run acts sys = Some sys' → system_ok n sys'.
Proof.
  revert sys. induction acts as [|a acts IH]; intros sys Hok; simpl.
  - by intros [= <-].
  - destruct (step a sys) as [sys1|] eqn:Hs; [|done]. simpl.
    apply IH. by eapply step_ok.
Qed.

(** X29.  In every state a system of at most [MAX_PEERS] peers reaches,
    under any schedule, peer [i] still has id [i] and the peer count it
    started with, its tables have their declared size, and every line in
    flight is addressed to an existing peer. *)
Theorem run_keeps_system_ok n (acts : list Action) sys :
  (0 < n)%nat → Z.of_nat n ≤ MAX_PEERS →
  run acts (system_init n) = Some sys →
  system_ok n sys.
Proof. intros Hn Hmax. apply run_ok. by apply system_init_ok. Qed.

(** X30.  In every state a system reaches, any line in flight can be
    handled next: its destination exists and [process_line] runs to its end
    without leaving the arrays, whatever the locals hold. *)
Theorem every_line_can_be_handled n (acts : list Action) sys (k : nat) (junk : Junk) :
  (0 < n)%nat → Z.of_nat n ≤ MAX_PEERS →
  run acts (system_init n) = Some sys →
  (k < length (wire sys))%nat →
  is_Some (step (Deliver k junk) sys).
Proof.
  intros Hn Hmax Hrun Hk.
  destruct (run_ok n acts _ _ (system_init_ok n Hn Hmax) Hrun) as (Hlen & Hnodes & Hwire).
  destruct (lookup_lt_is_Some_2 (wire sys) k Hk) as [pkt Hpkt].
  rewrite Forall_forall in Hwire.
  pose proof (Hwire pkt (list_elem_of_lookup_2 _ _ _ Hpkt)) as Hdst.
  destruct (lookup_lt_is_Some_2 (nodes sys) (Z.to_nat (dst pkt))) as [nd Hnd]; [lia|].
  destruct (Hnodes _ _ Hnd) as (Hok & _).
  destruct (process_line_defined junk (payload pkt) (peer nd) Hok) as (s' & out & Hp & _).
  unfold step. rewrite Hpkt. simpl.
  destruct (Z.ltb_spec (dst pkt) 0); [lia|].
  rewrite Hnd. simpl. rewrite Hp. done.
Qed.
End system_more.

Lemma run_keeps_system_ok_witness :
  ∃ sys, run late_queueing (system_init 2) = Some sys ∧ system_ok 2 sys.
Proof.
  eexists. split; [vm_compute; reflexivity|].
  eapply (run_keeps_system_ok 2 late_queueing); [lia | unfold MAX_PEERS; lia |].
  vm_compute. reflexivity.
Defined.

Lemma every_line_can_be_handled_witness :
  is_Some (sys ← run [Main 0 DoTick; Main 0 DoPost] (system_init 2);
           step (Deliver 0 (mkJunk 5 6 7 8)) sys).
Proof.
  destruct (run [Main 0 DoTick; Main 0 DoPost] (system_init 2)) as [sys|] eqn:Hrun;
    [| vm_compute in Hrun; discriminate].
  simpl. apply (every_line_can_be_handled 2 [Main 0 DoTick; Main 0 DoPost]);
    [lia | unfold MAX_PEERS; lia | exact Hrun |].
  assert (length <$> (wire <$> run [Main 0 DoTick; Main 0 DoPost] (system_init 2))
          = Some 1%nat) as Hlen by (vm_compute; reflexivity).
  rewrite Hrun in Hlen. simpl in Hlen. injection Hlen as ->. lia.
Defined.
